(** * go-archaius: the ConfigMap configuration source

    A shallow embedding of [sources/configmap-source/configmapsource.go]:
    the registry of files with their priorities ([handlePriority]), the
    merge of one file's freshly parsed mapping into the store
    ([compareUpdate], [addOrCreateConf]), the readers
    ([GetConfigurations], [GetConfigurationByKey]) and the directory walk
    of [AddFile].

    Modelling choices.
    - [uint32] priorities are [N]; the code only compares them, so no
      wrap-around arises.  [math.MaxUint32] is the "not found" sentinel of
      the priority lookups.
    - [map[string]*ConfigInfo] is a [gmap string (option ConfigInfo)]:
      [None] is the nil pointer.  Every pointer put in the map by
      [addOrCreateConf] is freshly allocated and [compareUpdate] re-inserts
      a pointer under the key it was found at, so no two keys share a
      [ConfigInfo]; the in-place writes [confInfo.Value = v] are therefore
      rendered as the insertion of the updated record.
    - Go iterates a map in an unspecified order.  The loops take the
      traversal as an explicit list; a traversal is admissible when it is a
      permutation of the map's bindings, and the theorems quantify over all
      admissible traversals.
    - A nil-pointer dereference is the outcome [Panic].
    - [interface{}] values are an arbitrary type with decidable equality,
      and [reflect.DeepEqual] is that equality (values on which DeepEqual is
      not reflexive, such as NaN, are outside the model). *)

From stdpp Require Import gmap strings list fin_maps.

Open Scope N_scope.

(** ** Constants *)

Definition ConfigMapConfigSourceConst : string := "ConfigMapSource".
Definition configMapSourcePriority : N := 4.
Definition DefaultConfigMapPriority : N := 0.
Definition MaxUint32 : N := 4294967295.

(** ** Data *)

(** [type file struct { filePath string; priority uint32 }] *)
Record file := mkFile { filePath : string; priority : N }.

#[global] Instance file_eq_dec : EqDecision file.
Proof. solve_decision. Defined.

(** [core.Create], [core.Update], [core.Delete] *)
Inductive EventKind := Create | Update | Delete.

#[global] Instance EventKind_eq_dec : EqDecision EventKind.
Proof. solve_decision. Defined.

(** [ConfigMapFileSourceTypes] *)
Inductive ConfigMapFileSourceTypes := RegularFile | Directory | InvalidFileType.

(** The result of a call that may dereference a nil pointer. *)
Inductive outcome (A : Type) :=
| Done (a : A)
| Panic.
Arguments Done {A} a.
Arguments Panic {A}.

#[global] Instance outcome_bind : MBind outcome := λ A B k o,
  match o with
  | Done a => k a
  | Panic => Panic
  end.

Definition error := string.

Section ConfigMapSource.
Context {Val : Type} `{!EqDecision Val}.

(** [type ConfigInfo struct { FilePath string; Value interface{} }] *)
Record ConfigInfo := mkConfigInfo { FilePath : string; Value : Val }.

(** [core.Event] *)
Record Event := mkEvent {
  EventSource : string;
  Key : string;
  EventType : EventKind;
  EventValue : Val
}.

(** The fields of [configMapSource] that the registry, the merge and the
    readers use. *)
Record configMapSource := mkSource {
  Configurations : gmap string (option ConfigInfo);
  files : list file
}.

Definition DeepEqual (a b : Val) : bool := bool_decide (a = b).

(** [NewConfigMapSource]: no file, no configuration. *)
Definition NewConfigMapSource : configMapSource :=
  {| Configurations := ∅; files := [] |}.

(** ** The registry *)

(** [isFileSrcExist] *)
Fixpoint isFileSrcExist_loop (fs : list file) (path : string) : bool :=
  match fs with
  | [] => false
  | f :: rest =>
      if bool_decide (path = filePath f) then true
      else isFileSrcExist_loop rest path
  end.

Definition isFileSrcExist (cm : configMapSource) (path : string) : bool :=
  isFileSrcExist_loop (files cm) path.

(** The body of the loop of [handlePriority]: the accumulator is
    [(newFilePriority, prioritySet)]. *)
Definition handlePriority_step (path : string) (prio : N)
    (acc : list file * bool) (f : file) : list file * bool :=
  let '(newFilePriority, prioritySet) := acc in
  if bool_decide (filePath f = path) && bool_decide (priority f = prio)
  then ((newFilePriority ++ [mkFile path prio]) ++ [f], true)
  else (newFilePriority ++ [f], prioritySet).

Definition handlePriority_files (fs : list file) (path : string) (prio : N)
    : list file :=
  let '(newFilePriority, prioritySet) :=
    foldl (handlePriority_step path prio) ([], false) fs in
  if prioritySet then newFilePriority
  else newFilePriority ++ [mkFile path prio].

(** [handlePriority]: the new state and the returned error. *)
Definition handlePriority (cm : configMapSource) (path : string) (prio : N)
    : configMapSource * option error :=
  ({| Configurations := Configurations cm;
      files := handlePriority_files (files cm) path prio |}, None).

(** The priority lookups of [compareUpdate]: the last entry of the path
    wins, [MaxUint32] when there is none. *)
Definition lookupPriority (fs : list file) (path : string) : N :=
  foldl (fun acc f => if bool_decide (filePath f = path) then priority f else acc)
        MaxUint32 fs.

(** ** The merge *)

Definition event (k : string) (t : EventKind) (v : Val) : Event :=
  {| EventSource := ConfigMapConfigSourceConst; Key := k;
     EventType := t; EventValue := v |}.

Definition withValue (ci : ConfigInfo) (v : Val) : ConfigInfo :=
  {| FilePath := FilePath ci; Value := v |}.

Definition mergeState : Type := gmap string (option ConfigInfo) * list Event.

(** One iteration of the loop over [cmSource.Configurations] in
    [compareUpdate]; the state is [(fileConfs, events)]. *)
Definition compareUpdate_step (fs : list file) (newconf : gmap string Val)
    (path : string) (filePathPriority : N)
    (st : mergeState) (entry : string * option ConfigInfo) : outcome mergeState :=
  let '(fileConfs, events) := st in
  let '(key, confInfo) := entry in
  match confInfo with
  | None => Panic
  | Some ci =>
      if bool_decide (FilePath ci = path) then
        match newconf !! key with
        | None => Done (fileConfs, events ++ [event key Delete (Value ci)])
        | Some newConfValue =>
            if DeepEqual (Value ci) newConfValue
            then Done (<[key := Some ci]> fileConfs, events)
            else Done (<[key := Some (withValue ci newConfValue)]> fileConfs,
                       events ++ [event key Update newConfValue])
        end
      else
        match newconf !! key with
        | Some newConfValue =>
            let prio := lookupPriority fs (FilePath ci) in
            if bool_decide (prio = filePathPriority) then
              Done (<[key := Some (withValue ci newConfValue)]> fileConfs, events)
            else if bool_decide (filePathPriority < prio) then
              Done (<[key := Some (withValue ci newConfValue)]> fileConfs,
                    events ++ [event key Update newConfValue])
            else Done (<[key := Some ci]> fileConfs, events)
        | None => Done (<[key := Some ci]> fileConfs, events)
        end
  end.

Fixpoint compareUpdate_loop (fs : list file) (newconf : gmap string Val)
    (path : string) (filePathPriority : N)
    (sigma : list (string * option ConfigInfo)) (st : mergeState)
    : outcome mergeState :=
  match sigma with
  | [] => Done st
  | entry :: rest =>
      st' ← compareUpdate_step fs newconf path filePathPriority st entry;
      compareUpdate_loop fs newconf path filePathPriority rest st'
  end.

(** [addOrCreateConf], over the traversal [tau] of [newconf]. *)
Fixpoint addOrCreateConf (fileConfs : gmap string (option ConfigInfo))
    (tau : list (string * Val)) (events : list Event) (path : string)
    : mergeState :=
  match tau with
  | [] => (fileConfs, events)
  | (key, value) :: rest =>
      match fileConfs !! key with
      | Some _ => addOrCreateConf fileConfs rest events path
      | None =>
          addOrCreateConf
            (<[key := Some {| FilePath := path; Value := value |}]> fileConfs)
            rest (events ++ [event key Create value]) path
      end
  end.

(** [compareUpdate] along the traversal [sigma] of the store and the
    traversal [tau] of [newconf] (the receiver is not nil). *)
Definition compareUpdate_on (cm : configMapSource)
    (sigma : list (string * option ConfigInfo)) (tau : list (string * Val))
    (newconf : gmap string Val) (path : string)
    : outcome (configMapSource * list Event) :=
  let filePathPriority := lookupPriority (files cm) path in
  if bool_decide (filePathPriority = MaxUint32) then Done (cm, [])
  else
    st ← compareUpdate_loop (files cm) newconf path filePathPriority sigma (∅, []);
    let '(fileConfs, events) := addOrCreateConf st.1 tau st.2 path in
    Done ({| Configurations := fileConfs; files := files cm |}, events).

(** The run in which both maps are traversed in the order of their keys. *)
Definition compareUpdate (cm : configMapSource) (newconf : gmap string Val)
    (path : string) : outcome (configMapSource * list Event) :=
  compareUpdate_on cm (map_to_list (Configurations cm)) (map_to_list newconf)
                   newconf path.

(** A traversal of a map visits each binding once. *)
Definition traversal {A} (l : list (string * A)) (m : gmap string A) : Prop :=
  l ≡ₚ map_to_list m.

(** ** The readers *)

(** [GetConfigurationByKey] along a traversal of the store: the value, or
    the error "key does not exist". *)
Fixpoint GetConfigurationByKey_on (sigma : list (string * option ConfigInfo))
    (key : string) : outcome (Val + error) :=
  match sigma with
  | [] => Done (inr "key does not exist"%string)
  | (ckey, confInfo) :: rest =>
      match confInfo with
      | None => Panic
      | Some ci =>
          if bool_decide (ckey = key) then Done (inl (Value ci))
          else GetConfigurationByKey_on rest key
      end
  end.

Definition GetConfigurationByKey (cm : configMapSource) (key : string)
    : outcome (Val + error) :=
  GetConfigurationByKey_on (map_to_list (Configurations cm)) key.

(** [GetConfigurations]: a nil entry reads as a nil value, [None]. *)
Definition GetConfigurations (cm : configMapSource) : gmap string (option Val) :=
  (fun confInfo : option ConfigInfo =>
     match confInfo with
     | None => None
     | Some ci => Some (Value ci)
     end) <$> Configurations cm.

(** ** Adding a file or a directory *)

(** What [fs.Stat()] reports for an opened node. *)
Inductive fileStat :=
| StatError
| FileMode (isDir isRegular : bool).

(** [getFileType] *)
Definition getFileType (st : fileStat) : ConfigMapFileSourceTypes :=
  match st with
  | StatError => InvalidFileType
  | FileMode isDir isRegular =>
      if isDir then Directory
      else if isRegular then RegularFile
      else InvalidFileType
  end.

(** One call of the function [AddFile] gives to [filepath.Walk], as the
    file system answers it: the absolute path of the node, the error
    [Walk] passes in (or [filepath.Abs] returns), whether [os.Open]
    reports that the node does not exist, what [Stat] says of the opened
    file ([StatError] also when [os.Open] failed for another reason), and
    what reading the file and running the handler on its bytes yields (the
    error [handleFile] returns, or the mapping).  The watch pool, to which
    the visited paths are added, and the handler registry are not part of
    the state modelled here. *)
Record walkNode := mkNode {
  nodePath : string;
  walkErr : option error;
  notExist : bool;
  nodeStat : fileStat;
  nodeConf : error + gmap string Val
}.

(** The enumeration orders the merges of one [AddFile] use. *)
Record iteration := mkIteration {
  overStore : gmap string (option ConfigInfo) → list (string * option ConfigInfo);
  overConf : gmap string Val → list (string * Val)
}.

Definition keyOrder : iteration :=
  {| overStore := map_to_list; overConf := map_to_list |}.

Definition visitResult : Type := configMapSource * list Event * option error.

(** [handleFile]: the state, the events offered to the callback of the
    watch pool, and the returned error. *)
Definition handleFile (it : iteration) (cm : configMapSource) (n : walkNode)
    (prio : N) : outcome visitResult :=
  match nodeConf n with
  | inl e => Done (cm, [], Some e)
  | inr config =>
      let '(cm1, err) := handlePriority cm (nodePath n) prio in
      match err with
      | Some e => Done (cm1, [], Some e)
      | None =>
          r ← compareUpdate_on cm1 (overStore it (Configurations cm1))
                (overConf it config) config (nodePath n);
          Done (r.1, r.2, None)
      end
  end.

Definition notExistError (path : string) : error :=
  ("[" ++ path ++ "] file not exist")%string.

Definition notSupportedError (path : string) : error :=
  ("file type of [" ++ path ++ "] not supported")%string.

(** The function [AddFile] passes to [filepath.Walk]. *)
Definition walkFn (it : iteration) (cm : configMapSource) (n : walkNode)
    (prio : N) : outcome visitResult :=
  match walkErr n with
  | Some e => Done (cm, [], Some e)
  | None =>
      if notExist n then Done (cm, [], Some (notExistError (nodePath n)))
      else
        match getFileType (nodeStat n) with
        | Directory => Done (cm, [], None)
        | RegularFile => handleFile it cm n prio
        | InvalidFileType =>
            Done (cm, [], Some (notSupportedError (nodePath n)))
        end
  end.

(** [filepath.Walk] over the nodes in the order it reaches them: the first
    error the function returns ends the walk and is its result. *)
Fixpoint Walk (it : iteration) (cm : configMapSource) (nodes : list walkNode)
    (prio : N) (events : list Event) : outcome visitResult :=
  match nodes with
  | [] => Done (cm, events, None)
  | n :: rest =>
      r ← walkFn it cm n prio;
      match r.2 with
      | Some e => Done (r.1.1, events ++ r.1.2, Some e)
      | None => Walk it r.1.1 rest prio (events ++ r.1.2)
      end
  end.

(** [AddFile]: [root] is what [getFilePath] returns for the argument, and
    [nodes] what the walk from it meets. *)
Definition AddFile (it : iteration) (cm : configMapSource)
    (root : error + string) (nodes : list walkNode) (prio : N)
    : outcome visitResult :=
  match root with
  | inl e => Done (cm, [], Some e)
  | inr path =>
      if isFileSrcExist cm path then Done (cm, [], None)
      else
        r ← Walk it cm nodes prio [];
        Done (r.1.1, r.1.2, None)
  end.

End ConfigMapSource.

Arguments ConfigInfo : clear implicits.
Arguments Event : clear implicits.
Arguments configMapSource : clear implicits.
Arguments walkNode : clear implicits.
Arguments iteration : clear implicits.

(** ** The merge, binding by binding

    What one merge does to the binding of a key depends only on that
    binding and on the value the new mapping has for the key. *)

Section MergeSpec.
Context {Val : Type} `{!EqDecision Val}.

(** A store no entry of which is the nil pointer. *)
Definition store_ok (m : gmap string (option (ConfigInfo Val))) : Prop :=
  map_Forall (fun _ confInfo => confInfo ≠ None) m.

(** The entry the loop of [compareUpdate] puts in [fileConfs] for an
    entry [ci] of the store, [nv] being [newconf[key]]. *)
Definition keptEntry (fs : list file) (path : string) (P : N)
    (ci : ConfigInfo Val) (nv : option Val) : option (ConfigInfo Val) :=
  if bool_decide (FilePath ci = path) then
    match nv with
    | None => None
    | Some v => if DeepEqual (Value ci) v then Some ci else Some (withValue ci v)
    end
  else
    match nv with
    | Some v =>
        if bool_decide (lookupPriority fs (FilePath ci) = P) then Some (withValue ci v)
        else if bool_decide (P < lookupPriority fs (FilePath ci)) then Some (withValue ci v)
        else Some ci
    | None => Some ci
    end.

(** The events the loop appends for that entry. *)
Definition entryEvents (fs : list file) (path : string) (P : N)
    (key : string) (ci : ConfigInfo Val) (nv : option Val) : list (Event Val) :=
  if bool_decide (FilePath ci = path) then
    match nv with
    | None => [event key Delete (Value ci)]
    | Some v => if DeepEqual (Value ci) v then [] else [event key Update v]
    end
  else
    match nv with
    | Some v =>
        if bool_decide (lookupPriority fs (FilePath ci) = P) then []
        else if bool_decide (P < lookupPriority fs (FilePath ci)) then [event key Update v]
        else []
    | None => []
    end.

(** The binding of a key after the merge, from its binding before and the
    new mapping's value. *)
Definition mergeBinding (fs : list file) (path : string) (P : N)
    (old : option (option (ConfigInfo Val))) (nv : option Val)
    : option (option (ConfigInfo Val)) :=
  match old with
  | Some (Some ci) => Some <$> keptEntry fs path P ci nv
  | Some None => Some None
  | None =>
      match nv with
      | Some v => Some (Some {| FilePath := path; Value := v |})
      | None => None
      end
  end.

Definition mergedStore (fs : list file) (path : string)
    (m : gmap string (option (ConfigInfo Val))) (newconf : gmap string Val)
    : gmap string (option (ConfigInfo Val)) :=
  merge (mergeBinding fs path (lookupPriority fs path)) m newconf.

(** The state after a merge for a registered path. *)
Definition merged (cm : configMapSource Val) (newconf : gmap string Val)
    (path : string) : configMapSource Val :=
  {| Configurations := mergedStore (files cm) path (Configurations cm) newconf;
     files := files cm |}.

(** The events of the first loop along [sigma]. *)
Definition loopEvents (fs : list file) (newconf : gmap string Val)
    (path : string) (sigma : list (string * option (ConfigInfo Val)))
    : list (Event Val) :=
  flat_map (fun entry : string * option (ConfigInfo Val) =>
              match entry.2 with
              | Some ci =>
                  entryEvents fs path (lookupPriority fs path) entry.1 ci
                              (newconf !! entry.1)
              | None => []
              end) sigma.

(** The events of [addOrCreateConf] along [tau]: one [Create] for each
    key the store [m] has no binding for. *)
Definition createEvents (m : gmap string (option (ConfigInfo Val)))
    (tau : list (string * Val)) : list (Event Val) :=
  flat_map (fun kv : string * Val =>
              match m !! kv.1 with
              | Some _ => []
              | None => [event kv.1 Create kv.2]
              end) tau.

Definition mergeEvents (cm : configMapSource Val)
    (sigma : list (string * option (ConfigInfo Val))) (tau : list (string * Val))
    (newconf : gmap string Val) (path : string) : list (Event Val) :=
  loopEvents (files cm) newconf path sigma ++ createEvents (Configurations cm) tau.

(** A path the merges know: its priority is found in the registry. *)
Definition registered (cm : configMapSource Val) (path : string) : Prop :=
  lookupPriority (files cm) path ≠ MaxUint32.

(** The stores that registrations and merges build from the empty one. *)
Inductive built : configMapSource Val → Prop :=
| built_new fs : built {| Configurations := ∅; files := fs |}
| built_register cm path prio :
    built cm → built (handlePriority cm path prio).1
| built_merge cm sigma tau newconf path cm' events :
    built cm →
    traversal sigma (Configurations cm) →
    traversal tau newconf →
    compareUpdate_on cm sigma tau newconf path = Done (cm', events) →
    built cm'.

(** The outcomes of a merge, over all the orders in which Go may
    enumerate the two maps. *)
Definition merge_run (cm : configMapSource Val) (newconf : gmap string Val)
    (path : string) (r : outcome (configMapSource Val * list (Event Val))) : Prop :=
  ∃ sigma tau,
    traversal sigma (Configurations cm) ∧ traversal tau newconf ∧
    r = compareUpdate_on cm sigma tau newconf path.

(** The events of a batch that are about one key. *)
Definition eventsFor (K : string) (events : list (Event Val)) : list (Event Val) :=
  filter (fun e => Key e = K) events.

(** What a registered merge reports about a key. *)
Definition keyEvents (cm : configMapSource Val) (newconf : gmap string Val)
    (path : string) (K : string) : list (Event Val) :=
  match Configurations cm !! K with
  | Some (Some ci) =>
      entryEvents (files cm) path (lookupPriority (files cm) path) K ci (newconf !! K)
  | Some None => []
  | None =>
      match newconf !! K with
      | Some v => [event K Create v]
      | None => []
      end
  end.

(** Every run of the merge ends without a panic, in a state and with
    events that satisfy [Q]. *)
Definition merge_yields (cm : configMapSource Val) (newconf : gmap string Val)
    (path : string) (Q : configMapSource Val → list (Event Val) → Prop) : Prop :=
  ∀ r, merge_run cm newconf path r → ∃ cm' events, r = Done (cm', events) ∧ Q cm' events.

End MergeSpec.

(** ** Reconciliation with the file system

    The rest of the source: the handler registry, [Cleanup], and what the
    loop of [watchFile] does with one event of the notifier, [updateFile]
    included.  The goroutine, the channels and the settle delay of the loop
    are not modelled, nor is the set of paths the notifier watches. *)

(** [f.filePath == filePath && f.priority == priority], the test of the
    loop of [handlePriority]. *)
Definition sameEntry (path : string) (prio : N) (f : file) : bool :=
  bool_decide (filePath f = path) && bool_decide (priority f = prio).

(** [strings.HasSuffix]: [len(s) >= len(suffix)] and the last
    [len(suffix)] bytes of [s] are [suffix]. *)
Definition HasSuffix (s suffix : string) : bool :=
  bool_decide (String.length suffix ≤ String.length s)%nat &&
  bool_decide (String.substring (String.length s - String.length suffix)
                                (String.length suffix) s = suffix).

(** [strings.HasPrefix] *)
Fixpoint HasPrefix (s pre : string) : bool :=
  match pre with
  | EmptyString => true
  | String a pre' =>
      match s with
      | EmptyString => false
      | String b s' => bool_decide (a = b) && HasPrefix s' pre'
      end
  end.

(** [strings.Contains]: [substr] occurs in [s] at some position. *)
Fixpoint Contains (s substr : string) : bool :=
  HasPrefix s substr ||
  match s with
  | EmptyString => false
  | String _ s' => Contains s' substr
  end.

(** [fsnotify.Op], a bit mask, and its constants. *)
Definition fsnotify_Create : N := 1.
Definition fsnotify_Write : N := 2.
Definition fsnotify_Remove : N := 4.
Definition fsnotify_Rename : N := 8.
Definition fsnotify_Chmod : N := 16.

(** [fsnotify.Event] *)
Record fsEvent := mkFsEvent { Name : string; Op : N }.

(** What the loop of [watchFile] does with an event before any
    reconciliation: it skips editor files and removals, it only renews the
    watch on a rename, and it hands everything else to [updateFile]. *)
Inductive watchAction := Skipped | Rewatched | Reconciled.

Definition watchAction_of (event : fsEvent) : watchAction :=
  if HasSuffix (Name event) ".swx" || HasSuffix (Name event) ".swp"
     || HasSuffix (Name event) "~"
  then Skipped
  else if bool_decide (Op event = fsnotify_Remove) then Skipped
  else if bool_decide (Op event = fsnotify_Rename) then Rewatched
  else Reconciled.

Section Reconciliation.
Context {Val : Type} `{!EqDecision Val}.

(** [utils.FileHandler]: from the path and the bytes of a file to its
    mapping, or an error. *)
Definition FileHandler : Type := string → string → error + gmap string Val.

(** [utils.Convert2JavaProps], the handler used when none is given; it is
    defined outside this file. *)
Variable Convert2JavaProps : FileHandler.

(** The source with its handler registry; a nil handler is [None]. *)
Record watchedSource := mkWatched {
  source : configMapSource Val;
  fileHandlers : gmap string (option FileHandler)
}.

(** The file system as one call sees it: what [getFilePath] returns for a
    path, the nodes [filepath.Walk] meets from it, and what
    [ioutil.ReadFile] returns. *)
Record rawNode := mkRawNode {
  rawPath : string;
  rawErr : option error;
  rawNotExist : bool;
  rawStat : fileStat
}.

Record fileSystem := mkFileSystem {
  fsResolve : string → error + string;
  fsWalk : string → list rawNode;
  fsRead : string → error + string
}.

Definition handlerOrDefault (handle : option FileHandler) : FileHandler :=
  match handle with
  | Some h => h
  | None => Convert2JavaProps
  end.

Definition pullError (name : string) (e : error) : error :=
  ("failed to pull configurations from [" ++ name ++ "] file, " ++ e)%string.

(** The first half of [handleFile]: read the file and run the handler. *)
Definition pullConf (fs : fileSystem) (handle : option FileHandler)
    (name : string) : error + gmap string Val :=
  match fsRead fs name with
  | inl e => inl e
  | inr content =>
      match handlerOrDefault handle name content with
      | inl e => inl (pullError name e)
      | inr config => inr config
      end
  end.

Definition loadNode (fs : fileSystem) (handle : option FileHandler)
    (raw : rawNode) : walkNode Val :=
  {| nodePath := rawPath raw; walkErr := rawErr raw;
     notExist := rawNotExist raw; nodeStat := rawStat raw;
     nodeConf := pullConf fs handle (rawPath raw) |}.

Definition reconcileResult : Type := watchedSource * list (Event Val).

(** [AddFile] with the handler registry: the handler is recorded under
    the resolved path before the walk. *)
Definition AddFile_handler (it : iteration Val) (fs : fileSystem)
    (ws : watchedSource) (p : string) (prio : N) (handle : option FileHandler)
    : outcome (reconcileResult * option error) :=
  match fsResolve fs p with
  | inl e => Done (ws, [], Some e)
  | inr path =>
      if isFileSrcExist (source ws) path then Done (ws, [], None)
      else
        r ← AddFile it (source ws) (inr path) (loadNode fs handle <$> fsWalk fs p) prio;
        Done ({| source := r.1.1;
                 fileHandlers := <[path := handle]> (fileHandlers ws) |},
              r.1.2, r.2)
  end.

(** The priority [updateFile] gives to a file it does not know: that of
    the last registered path contained in its name. *)
Definition inferPriority (registry : list file) (name : string) : N :=
  foldl (fun prio f => if Contains name (filePath f) then priority f else prio)
        configMapSourcePriority registry.

(** Its handler, along a traversal of the handler registry. *)
Definition inferHandler (eta : list (string * option FileHandler))
    (name : string) : option FileHandler :=
  foldl (fun fileHandler entry =>
           if Contains name entry.1 then entry.2 else fileHandler)
        None eta.

(** [updateFile]: the new state and the events given to the callback
    (the watch pool that runs the loop is the one of the source, with its
    callback set, as [DynamicConfigHandler] leaves it).  [eta] is the
    traversal of the handler registry. *)
Definition updateFile (it : iteration Val) (fs : fileSystem)
    (eta : list (string * option FileHandler))
    (ws : watchedSource) (event : fsEvent) : outcome reconcileResult :=
  if isFileSrcExist (source ws) (Name event) then
    let handle := handlerOrDefault (default None (fileHandlers ws !! Name event)) in
    match fsRead fs (Name event) with
    | inl _ => Done (ws, [])
    | inr content =>
        match handle (Name event) content with
        | inl _ => Done (ws, [])
        | inr newConf =>
            r ← compareUpdate_on (source ws)
                  (overStore it (Configurations (source ws)))
                  (overConf it newConf) newConf (Name event);
            Done ({| source := r.1; fileHandlers := fileHandlers ws |}, r.2)
        end
    end
  else
    r ← AddFile_handler it fs ws (Name event)
          (inferPriority (files (source ws)) (Name event))
          (inferHandler eta (Name event));
    Done r.1.

(** The body of the loop of [watchFile] for one event. *)
Definition watchEvent (it : iteration Val) (fs : fileSystem)
    (eta : list (string * option FileHandler))
    (ws : watchedSource) (event : fsEvent) : outcome reconcileResult :=
  match watchAction_of event with
  | Skipped | Rewatched => Done (ws, [])
  | Reconciled => updateFile it fs eta ws event
  end.

(** [Cleanup]: [created] tells whether the package-level source
    [configMapConfigSource] has been created.  The store and the registry
    are emptied; the handler registry is kept. *)
Definition Cleanup (created : bool) (ws : watchedSource)
    : watchedSource * option error :=
  if created then
    ({| source := {| Configurations := ∅; files := [] |};
        fileHandlers := fileHandlers ws |}, None)
  else (ws, None).

(** A node of the walk that [AddFile] registers and merges: a regular
    file that can be read and parsed. *)
Definition loadsFile (n : walkNode Val) : Prop :=
  walkErr n = None ∧ notExist n = false ∧
  getFileType (nodeStat n) = RegularFile ∧ ∃ config, nodeConf n = inr config.


End Reconciliation.

Arguments watchedSource : clear implicits.
Arguments fileSystem : clear implicits.
Arguments FileHandler : clear implicits.

(** ** Example data

    Three files of one directory: [low.conf] and [peer.conf] at priority
    10, [high.conf] at priority 1. *)

Definition lowConf : string := "/conf/low.conf".
Definition highConf : string := "/conf/high.conf".
Definition peerConf : string := "/conf/peer.conf".

Definition exRegistry : list file :=
  [mkFile lowConf 10; mkFile highConf 1; mkFile peerConf 10].

(** Nothing merged yet. *)
Definition emptyStore : configMapSource string :=
  {| Configurations := ∅; files := exRegistry |}.

(** [low.conf] has supplied [y = a]. *)
Definition lowEntry : ConfigInfo string :=
  {| FilePath := lowConf; Value := "a"%string |}.

Definition lowStore : configMapSource string :=
  {| Configurations := {[ "y"%string := Some lowEntry ]}; files := exRegistry |}.

Definition lowMapping : gmap string string := {[ "y"%string := "a"%string ]}.
Definition highMapping : gmap string string := {[ "y"%string := "b"%string ]}.
Definition peerMapping : gmap string string := {[ "y"%string := "c"%string ]}.

(** A directory with a regular file, a socket and another regular file, as
    [filepath.Walk] meets them. *)
Definition exWalk : list (walkNode string) :=
  [ mkNode "/conf" None false (FileMode true false) (inl "is a directory"%string);
    mkNode "/conf/a.conf" None false (FileMode false true)
           (inr {[ "x"%string := "1"%string ]});
    mkNode "/conf/b.sock" None false (FileMode false false)
           (inl "not a regular file"%string);
    mkNode "/conf/c.conf" None false (FileMode false true)
           (inr {[ "z"%string := "3"%string ]}) ].

(** The state once [a.conf] alone has been loaded at priority 5. *)
Definition afterAConf : configMapSource string :=
  {| Configurations :=
       {[ "x"%string := Some {| FilePath := "/conf/a.conf"; Value := "1"%string |} ]};
     files := [mkFile "/conf/a.conf" 5] |}.

(** [peer.conf] has supplied [w = p], and [high.conf] [h = q]. *)
Definition mixedStore : configMapSource string :=
  {| Configurations :=
       {[ "y"%string := Some lowEntry;
          "w"%string := Some {| FilePath := peerConf; Value := "p"%string |};
          "h"%string := Some {| FilePath := highConf; Value := "q"%string |} ]};
     files := exRegistry |}.

Definition lowEdit : gmap string string :=
  {[ "y"%string := "a2"%string; "h"%string := "z"%string; "n"%string := "new"%string ]}.

(** A handler that makes the content of a file the value of [x], a
    default handler that makes it the value of [line]. *)
Definition exHandler : FileHandler string :=
  fun _ content => inr {[ "x"%string := content ]}.

Definition exDefault : FileHandler string :=
  fun _ content => inr {[ "line"%string := content ]}.

Definition exFile : string := "/conf/a.conf".

(** A file system in which every path is a regular file with the given
    content. *)
Definition fileWith (content : string) : fileSystem :=
  {| fsResolve := inr;
     fsWalk := fun p => [mkRawNode p None false (FileMode false true)];
     fsRead := fun _ => inr content |}.

(** A file system in which [/conf] is a directory that holds [a.conf]. *)
Definition dirWith (content : string) : fileSystem :=
  {| fsResolve := inr;
     fsWalk := fun p =>
       [mkRawNode p None false (FileMode true false);
        mkRawNode exFile None false (FileMode false true)];
     fsRead := fun _ => inr content |}.

Definition newSource : watchedSource string :=
  {| source := NewConfigMapSource; fileHandlers := ∅ |}.

(** The state after [AddFile("/conf", 7, exHandler)] on the directory. *)
Definition afterDir : watchedSource string :=
  match AddFile_handler exDefault keyOrder (dirWith "1") newSource "/conf" 7
                        (Some exHandler) with
  | Done r => r.1.1
  | Panic => newSource
  end.

(** The state after the watcher has met the new file [/conf/b.conf]. *)
Definition afterDiscovery : watchedSource string :=
  match updateFile exDefault keyOrder (fileWith "2")
                   (map_to_list (fileHandlers afterDir)) afterDir
                   (mkFsEvent "/conf/b.conf" fsnotify_Create) with
  | Done r => r.1
  | Panic => afterDir
  end.

(** The nodes of [exWalk], one by one. *)
Definition dirNode : walkNode string :=
  mkNode "/conf" None false (FileMode true false) (inl "is a directory"%string).
Definition aConfNode : walkNode string :=
  mkNode exFile None false (FileMode false true) (inr {[ "x"%string := "1"%string ]}).
Definition sockNode : walkNode string :=
  mkNode "/conf/b.sock" None false (FileMode false false)
         (inl "not a regular file"%string).
Definition cConfNode : walkNode string :=
  mkNode "/conf/c.conf" None false (FileMode false true)
         (inr {[ "z"%string := "3"%string ]}).

(** * Properties *)

Section MergeProofs.
Context {Val : Type} `{!EqDecision Val}.
Implicit Types (cm : configMapSource Val) (ci : ConfigInfo Val).
Implicit Types (m fc : gmap string (option (ConfigInfo Val))).
Implicit Types (newconf : gmap string Val) (path key : string).
Implicit Types (sigma : list (string * option (ConfigInfo Val))).
Implicit Types (tau : list (string * Val)) (events : list (Event Val)).
Implicit Types (v : Val) (nv : option Val).

Lemma compareUpdate_step_Some fs newconf path P fc events key ci :
  compareUpdate_step fs newconf path P (fc, events) (key, Some ci) =
  Done (match keptEntry fs path P ci (newconf !! key) with
        | Some x => <[key := Some x]> fc
        | None => fc
        end,
        events ++ entryEvents fs path P key ci (newconf !! key)).
Proof.
  unfold compareUpdate_step, keptEntry, entryEvents.
  repeat (case_bool_decide || case_match); simplify_eq;
    rewrite ?app_nil_r; reflexivity.
Qed.

(** The first loop: it ends when no entry is nil, and each key of the
    traversal gets the entry [keptEntry] gives. *)
Lemma compareUpdate_loop_spec fs newconf path sigma fc events :
  NoDup sigma.*1 →
  Forall (fun entry => entry.2 ≠ None) sigma →
  ∃ fc',
    compareUpdate_loop fs newconf path (lookupPriority fs path) sigma (fc, events)
      = Done (fc', events ++ loopEvents fs newconf path sigma) ∧
    ∀ k, fc' !! k =
         match (list_to_map sigma : gmap string (option (ConfigInfo Val))) !! k with
         | Some (Some ci) =>
             match keptEntry fs path (lookupPriority fs path) ci (newconf !! k) with
             | Some x => Some (Some x)
             | None => fc !! k
             end
         | _ => fc !! k
         end.
Proof.
  revert fc events.
  induction sigma as [|[k0 confInfo] rest IH]; intros fc events Hnd Hok.
  - exists fc. split.
    + simpl. by rewrite app_nil_r.
    + intros k. by rewrite list_to_map_nil, lookup_empty.
  - apply NoDup_cons in Hnd as [Hk0 Hnd].
    apply Forall_cons in Hok as [Hci Hok].
    destruct confInfo as [ci0|]; [|done].
    cbn [compareUpdate_loop]. rewrite compareUpdate_step_Some.
    cbn [mbind outcome_bind].
    destruct (IH (match keptEntry fs path (lookupPriority fs path) ci0 (newconf !! k0) with
                  | Some x => <[k0 := Some x]> fc
                  | None => fc
                  end)
                 (events ++ entryEvents fs path (lookupPriority fs path) k0 ci0 (newconf !! k0))
                 Hnd Hok) as (fc' & Hrun & Hlook).
    exists fc'. split.
    + rewrite Hrun. unfold loopEvents. cbn [flat_map fst snd].
      by rewrite app_assoc.
    + intros k. rewrite Hlook, list_to_map_cons.
      destruct (decide (k = k0)) as [->|Hne].
      * rewrite lookup_insert_eq.
        rewrite (not_elem_of_list_to_map_1 _ _ Hk0).
        destruct (keptEntry _ _ _ ci0 _); [by rewrite lookup_insert_eq|done].
      * rewrite lookup_insert_ne by done.
        assert (match keptEntry fs path (lookupPriority fs path) ci0 (newconf !! k0) with
                | Some x => <[k0 := Some x]> fc
                | None => fc
                end !! k = fc !! k) as ->.
        { destruct (keptEntry _ _ _ ci0 _); [by rewrite lookup_insert_ne|done]. }
        done.
Qed.

Lemma createEvents_insert_fresh fc tau k0 x :
  k0 ∉ tau.*1 → createEvents (<[k0 := x]> fc) tau = createEvents fc tau.
Proof.
  unfold createEvents.
  induction tau as [|[k1 v1] rest IH]; intros Hk0; [done|].
  cbn in Hk0. apply not_elem_of_cons in Hk0 as [Hne Hk0].
  cbn [flat_map fst snd]. rewrite lookup_insert_ne by done.
  by rewrite IH.
Qed.

(** [addOrCreateConf]: the keys of the traversal the map lacks are bound to
    a new entry of the path, the others are left alone. *)
Lemma addOrCreateConf_spec fc tau events path :
  NoDup tau.*1 →
  ∃ fc',
    addOrCreateConf fc tau events path = (fc', events ++ createEvents fc tau) ∧
    ∀ k, fc' !! k =
         match fc !! k with
         | Some x => Some x
         | None =>
             match (list_to_map tau : gmap string Val) !! k with
             | Some v => Some (Some {| FilePath := path; Value := v |})
             | None => None
             end
         end.
Proof.
  revert fc events.
  induction tau as [|[k0 v0] rest IH]; intros fc events Hnd.
  - exists fc. split.
    + simpl. by rewrite app_nil_r.
    + intros k. rewrite list_to_map_nil, lookup_empty. by destruct (fc !! k).
  - apply NoDup_cons in Hnd as [Hk0 Hnd].
    cbn [addOrCreateConf]. unfold createEvents. cbn [flat_map fst snd].
    destruct (fc !! k0) as [x0|] eqn:Hfc.
    + destruct (IH fc events Hnd) as (fc' & Hrun & Hlook).
      exists fc'. split; [done|].
      intros k. rewrite Hlook, list_to_map_cons.
      destruct (decide (k = k0)) as [->|Hne].
      * by rewrite Hfc.
      * by rewrite lookup_insert_ne.
    + destruct (IH (<[k0 := Some {| FilePath := path; Value := v0 |}]> fc)
                   (events ++ [event k0 Create v0]) Hnd) as (fc' & Hrun & Hlook).
      exists fc'. split.
      * rewrite Hrun, <- app_assoc.
        by rewrite (createEvents_insert_fresh _ _ _ _ Hk0).
      * intros k. rewrite Hlook, list_to_map_cons.
        destruct (decide (k = k0)) as [->|Hne].
        -- by rewrite lookup_insert_eq, Hfc, lookup_insert_eq.
        -- by rewrite !lookup_insert_ne.
Qed.

Lemma createEvents_ext fc m tau :
  (∀ k v, (k, v) ∈ tau → fc !! k = None ↔ m !! k = None) →
  createEvents fc tau = createEvents m tau.
Proof.
  unfold createEvents.
  induction tau as [|[k v] rest IH]; intros Hsame; [done|].
  cbn [flat_map fst snd].
  rewrite IH by (intros k' v' Hin; apply (Hsame k' v'); by right).
  f_equal. specialize (Hsame k v (list_elem_of_here _ _)).
  destruct (fc !! k), (m !! k); try done.
  - by specialize (proj2 Hsame eq_refl).
  - by specialize (proj1 Hsame eq_refl).
Qed.

Lemma traversal_NoDup {A} (l : list (string * A)) (m : gmap string A) :
  traversal l m → NoDup l.*1.
Proof.
  intros Hl. unfold traversal in Hl. rewrite Hl. apply NoDup_fst_map_to_list.
Qed.

Lemma traversal_list_to_map {A} (l : list (string * A)) (m : gmap string A) :
  traversal l m → list_to_map l = m.
Proof.
  intros Hl. rewrite <- (list_to_map_to_list m).
  apply list_to_map_proper; [by eapply traversal_NoDup|done].
Qed.

Lemma traversal_elem_of {A} (l : list (string * A)) (m : gmap string A) k x :
  traversal l m → (k, x) ∈ l ↔ m !! k = Some x.
Proof.
  intros Hl. unfold traversal in Hl. rewrite Hl. apply elem_of_map_to_list.
Qed.

Lemma traversal_store_ok sigma m :
  traversal sigma m → store_ok m → Forall (fun entry => entry.2 ≠ None) sigma.
Proof.
  intros Hl Hok. apply Forall_forall. intros [k x] Hin.
  apply (traversal_elem_of _ _ _ _ Hl) in Hin. by apply (Hok k x).
Qed.

Lemma keptEntry_None fs path P ci nv :
  keptEntry fs path P ci nv = None → nv = None ∧ FilePath ci = path.
Proof.
  unfold keptEntry. repeat (case_bool_decide || case_match); naive_solver.
Qed.

(** A path that is not registered: nothing happens. *)
Lemma compareUpdate_on_unregistered cm sigma tau newconf path :
  lookupPriority (files cm) path = MaxUint32 →
  compareUpdate_on cm sigma tau newconf path = Done (cm, []).
Proof.
  intros HP. unfold compareUpdate_on. by rewrite bool_decide_eq_true_2.
Qed.

(** A registered path, on a store without nil entries: the merge ends, and
    the new store and the events are those of [merged] and [mergeEvents],
    whatever the traversals. *)
Lemma compareUpdate_on_registered cm sigma tau newconf path :
  store_ok (Configurations cm) →
  traversal sigma (Configurations cm) →
  traversal tau newconf →
  registered cm path →
  compareUpdate_on cm sigma tau newconf path =
  Done (merged cm newconf path, mergeEvents cm sigma tau newconf path).
Proof.
  intros Hok Hsigma Htau Hreg. unfold compareUpdate_on.
  rewrite bool_decide_eq_false_2 by done.
  destruct (compareUpdate_loop_spec (files cm) newconf path sigma ∅ []
              (traversal_NoDup _ _ Hsigma) (traversal_store_ok _ _ Hsigma Hok))
    as (fc1 & Hrun1 & Hlook1).
  rewrite Hrun1. cbn [mbind outcome_bind fst snd].
  destruct (addOrCreateConf_spec fc1 tau
              ([] ++ loopEvents (files cm) newconf path sigma) path
              (traversal_NoDup _ _ Htau)) as (fc2 & Hrun2 & Hlook2).
  rewrite Hrun2.
  rewrite (traversal_list_to_map _ _ Hsigma) in Hlook1.
  rewrite (traversal_list_to_map _ _ Htau) in Hlook2.
  assert (∀ k, fc1 !! k =
               match Configurations cm !! k with
               | Some (Some ci) =>
                   Some <$> keptEntry (files cm) path (lookupPriority (files cm) path)
                                      ci (newconf !! k)
               | _ => None
               end) as Hfc1.
  { intros k. rewrite Hlook1, lookup_empty.
    destruct (Configurations cm !! k) as [[ci|]|]; [|done..].
    by destruct (keptEntry _ _ _ ci _). }
  f_equal. f_equal.
  - unfold merged. f_equal. apply map_eq. intros k.
    unfold mergedStore. rewrite lookup_merge, Hlook2, Hfc1.
    destruct (Configurations cm !! k) as [[ci|]|] eqn:Hk.
    + cbn [diag_None mergeBinding].
      destruct (keptEntry _ _ _ ci _) as [x|] eqn:Hkept; cbn; [done|].
      apply keptEntry_None in Hkept as [-> _]. done.
    + by destruct (Hok k None Hk).
    + by destruct (newconf !! k).
  - unfold mergeEvents. cbn [app]. f_equal.
    apply createEvents_ext. intros k v Hin.
    apply (traversal_elem_of _ _ _ _ Htau) in Hin.
    rewrite Hfc1.
    destruct (Configurations cm !! k) as [[ci|]|] eqn:Hk; [|by destruct (Hok k None Hk)|done].
    destruct (keptEntry _ _ _ ci _) as [x|] eqn:Hkept; cbn; [done|].
    apply keptEntry_None in Hkept as [Hnv _]. congruence.
Qed.

(** *** The registry lookups *)

Lemma lookupPriority_snoc fs f path :
  lookupPriority (fs ++ [f]) path =
  if bool_decide (filePath f = path) then priority f else lookupPriority fs path.
Proof. unfold lookupPriority. by rewrite foldl_app. Qed.

Lemma lookupPriority_absent_acc fs path acc :
  isFileSrcExist_loop fs path = false →
  foldl (fun acc f => if bool_decide (filePath f = path) then priority f else acc)
        acc fs = acc.
Proof.
  revert acc. induction fs as [|f fs IH]; intros acc Hno; [done|].
  cbn in Hno |- *. case_bool_decide as Hf; [done|].
  rewrite bool_decide_eq_false_2 by congruence. by apply IH.
Qed.

Lemma lookupPriority_absent fs path :
  isFileSrcExist_loop fs path = false → lookupPriority fs path = MaxUint32.
Proof. apply lookupPriority_absent_acc. Qed.

(** *** Stores without nil entries *)

Lemma mergedStore_ok fs path m newconf :
  store_ok m → store_ok (mergedStore fs path m newconf).
Proof.
  intros Hok k x. unfold mergedStore. rewrite lookup_merge.
  destruct (m !! k) as [[ci|]|] eqn:Hk.
  - cbn. destruct (keptEntry _ _ _ ci _); cbn; congruence.
  - by destruct (Hok k None Hk).
  - destruct (newconf !! k); cbn; congruence.
Qed.

Lemma merge_run_registered cm newconf path r :
  store_ok (Configurations cm) → registered cm path →
  merge_run cm newconf path r →
  ∃ sigma tau,
    traversal sigma (Configurations cm) ∧ traversal tau newconf ∧
    r = Done (merged cm newconf path, mergeEvents cm sigma tau newconf path).
Proof.
  intros Hok Hreg (sigma & tau & Hs & Ht & ->).
  exists sigma, tau. by rewrite compareUpdate_on_registered.
Qed.

Lemma merge_run_unregistered cm newconf path r :
  ¬ registered cm path → merge_run cm newconf path r → r = Done (cm, []).
Proof.
  intros Hreg (sigma & tau & Hs & Ht & ->).
  apply compareUpdate_on_unregistered.
  unfold registered in Hreg. by destruct (decide (lookupPriority (files cm) path = MaxUint32)).
Qed.

(** Whatever a merge leaves in the store is not nil, as soon as the store
    it started from had no nil entry. *)
Lemma merge_run_store_ok cm newconf path cm' events :
  store_ok (Configurations cm) →
  merge_run cm newconf path (Done (cm', events)) →
  store_ok (Configurations cm').
Proof.
  intros Hok Hrun.
  destruct (decide (registered cm path)) as [Hreg|Hreg].
  - destruct (merge_run_registered _ _ _ _ Hok Hreg Hrun) as (? & ? & _ & _ & Heq).
    simplify_eq. by apply mergedStore_ok.
  - apply merge_run_unregistered in Hrun; [|done]. by simplify_eq.
Qed.

Lemma built_store_ok cm : built cm → store_ok (Configurations cm).
Proof.
  induction 1 as [fs|cm path prio _ IH|cm sigma tau newconf path cm' events _ IH Hs Ht Hrun].
  - apply map_Forall_empty.
  - done.
  - eapply merge_run_store_ok; [exact IH|]. exists sigma, tau. by rewrite Hrun.
Qed.

(** *** The events of a merge, key by key *)

Lemma eventsFor_app K events1 events2 :
  eventsFor K (events1 ++ events2) = eventsFor K events1 ++ eventsFor K events2.
Proof. apply filter_app. Qed.

Lemma eventsFor_single_same K t v : eventsFor K [event K t v] = [event K t v].
Proof. unfold eventsFor. rewrite filter_cons_True by done. done. Qed.

Lemma eventsFor_single_other K key t v :
  K ≠ key → eventsFor K [event key t v] = [].
Proof.
  intros Hne. unfold eventsFor. rewrite filter_cons_False; [done|].
  cbn. congruence.
Qed.

Lemma eventsFor_entryEvents_same fs path P key ci nv :
  eventsFor key (entryEvents fs path P key ci nv) = entryEvents fs path P key ci nv.
Proof.
  unfold entryEvents.
  repeat (case_bool_decide || case_match); auto using eventsFor_single_same.
Qed.

Lemma eventsFor_entryEvents_other fs path P K key ci nv :
  K ≠ key → eventsFor K (entryEvents fs path P key ci nv) = [].
Proof.
  intros Hne. unfold entryEvents.
  repeat (case_bool_decide || case_match); auto using eventsFor_single_other.
Qed.

Lemma eventsFor_loopEvents fs newconf path sigma K :
  NoDup sigma.*1 →
  eventsFor K (loopEvents fs newconf path sigma) =
  match (list_to_map sigma : gmap string (option (ConfigInfo Val))) !! K with
  | Some (Some ci) =>
      entryEvents fs path (lookupPriority fs path) K ci (newconf !! K)
  | _ => []
  end.
Proof.
  induction sigma as [|[k0 confInfo] rest IH]; intros Hnd.
  - by rewrite list_to_map_nil, lookup_empty.
  - apply NoDup_cons in Hnd as [Hk0 Hnd].
    unfold loopEvents. cbn [flat_map fst snd]. fold (loopEvents fs newconf path rest).
    rewrite eventsFor_app, (IH Hnd), list_to_map_cons.
    destruct (decide (K = k0)) as [->|Hne].
    + rewrite lookup_insert_eq, (not_elem_of_list_to_map_1 _ _ Hk0), app_nil_r.
      destruct confInfo; [apply eventsFor_entryEvents_same|done].
    + rewrite lookup_insert_ne by done.
      destruct confInfo; [by rewrite eventsFor_entryEvents_other|done].
Qed.

Lemma eventsFor_createEvents m tau K :
  NoDup tau.*1 →
  eventsFor K (createEvents m tau) =
  match m !! K, (list_to_map tau : gmap string Val) !! K with
  | None, Some v => [event K Create v]
  | _, _ => []
  end.
Proof.
  induction tau as [|[k0 v0] rest IH]; intros Hnd.
  - rewrite list_to_map_nil, lookup_empty. by destruct (m !! K).
  - apply NoDup_cons in Hnd as [Hk0 Hnd].
    unfold createEvents. cbn [flat_map fst snd]. fold (createEvents m rest).
    rewrite eventsFor_app, (IH Hnd), list_to_map_cons.
    destruct (decide (K = k0)) as [->|Hne].
    + rewrite lookup_insert_eq, (not_elem_of_list_to_map_1 _ _ Hk0).
      destruct (m !! k0); [done|].
      by rewrite eventsFor_single_same.
    + rewrite lookup_insert_ne by done.
      destruct (m !! k0); [done|].
      by rewrite eventsFor_single_other.
Qed.

(** The events of a registered merge about one key depend only on the
    key's binding and on the new mapping's value for it. *)
Lemma eventsFor_mergeEvents cm sigma tau newconf path K :
  store_ok (Configurations cm) →
  traversal sigma (Configurations cm) →
  traversal tau newconf →
  eventsFor K (mergeEvents cm sigma tau newconf path) = keyEvents cm newconf path K.
Proof.
  intros Hok Hs Ht. unfold mergeEvents, keyEvents.
  rewrite eventsFor_app.
  rewrite (eventsFor_loopEvents _ _ _ _ _ (traversal_NoDup _ _ Hs)).
  rewrite (eventsFor_createEvents _ _ _ (traversal_NoDup _ _ Ht)).
  rewrite (traversal_list_to_map _ _ Hs), (traversal_list_to_map _ _ Ht).
  destruct (Configurations cm !! K) as [[ci|]|]; [by rewrite app_nil_r|done|].
  by destruct (newconf !! K).
Qed.

(** *** The entry kept for a key, case by case *)


(** The incoming path has the larger priority value: the entry stays. *)
Lemma keptEntry_other_lower fs S P ci v :
  FilePath ci ≠ S → lookupPriority fs (FilePath ci) < P →
  keptEntry fs S P ci (Some v) = Some ci.
Proof.
  intros Hown HP. unfold keptEntry.
  rewrite bool_decide_eq_false_2 by done.
  rewrite bool_decide_eq_false_2 by lia.
  by rewrite bool_decide_eq_false_2 by lia.
Qed.

(** *** The shape of a batch of events *)

Lemma entryEvents_shape fs path P key ci nv :
  entryEvents fs path P key ci nv = [] ∨
  ∃ t v, (t = Update ∨ t = Delete) ∧ entryEvents fs path P key ci nv = [event key t v].
Proof.
  unfold entryEvents.
  repeat (case_bool_decide || case_match); eauto 6.
Qed.

Lemma loopEvents_keys_sublist fs newconf path sigma :
  Key <$> loopEvents fs newconf path sigma `sublist_of` sigma.*1.
Proof.
  induction sigma as [|[k0 confInfo] rest IH]; [done|].
  unfold loopEvents. cbn [flat_map fst snd]. fold (loopEvents fs newconf path rest).
  rewrite fmap_app, fmap_cons. cbn [fst].
  destruct confInfo as [ci|]; [|by apply sublist_cons].
  destruct (entryEvents_shape fs path (lookupPriority fs path) k0 ci (newconf !! k0))
    as [->|(t & v & _ & ->)].
  - by apply sublist_cons.
  - by apply sublist_skip.
Qed.

Lemma createEvents_keys_sublist m tau :
  Key <$> createEvents m tau `sublist_of` tau.*1.
Proof.
  induction tau as [|[k0 v0] rest IH]; [done|].
  unfold createEvents. cbn [flat_map fst snd]. fold (createEvents m rest).
  rewrite fmap_app, fmap_cons. cbn [fst].
  destruct (m !! k0); [by apply sublist_cons|by apply sublist_skip].
Qed.

Lemma loopEvents_Forall fs newconf path sigma m :
  (∀ k x, (k, x) ∈ sigma → m !! k = Some x) →
  Forall (fun e => (EventType e = Update ∨ EventType e = Delete) ∧
                   is_Some (m !! Key e))
         (loopEvents fs newconf path sigma).
Proof.
  induction sigma as [|[k0 confInfo] rest IH]; intros Hin; [by constructor|].
  unfold loopEvents. cbn [flat_map fst snd]. fold (loopEvents fs newconf path rest).
  apply Forall_app. split.
  - destruct confInfo as [ci|]; [|by constructor].
    destruct (entryEvents_shape fs path (lookupPriority fs path) k0 ci (newconf !! k0))
      as [->|(t & v & Ht & ->)]; [by constructor|].
    apply Forall_singleton. split; [done|].
    cbn. rewrite (Hin k0 (Some ci)); [done|by left].
  - apply IH. intros k x Hk. apply Hin. by right.
Qed.

Lemma createEvents_Forall m tau :
  Forall (fun e => EventType e = Create ∧ m !! Key e = None) (createEvents m tau).
Proof.
  induction tau as [|[k0 v0] rest IH]; [by constructor|].
  unfold createEvents. cbn [flat_map fst snd]. fold (createEvents m rest).
  apply Forall_app. split; [|done].
  destruct (m !! k0) eqn:Hk; [by constructor|].
  by apply Forall_singleton.
Qed.

(** No key occurs twice in the events of a merge, and the changes to the
    keys the store had come before the creations of the keys it lacked. *)
Lemma mergeEvents_shape cm sigma tau newconf path :
  traversal sigma (Configurations cm) →
  traversal tau newconf →
  NoDup (Key <$> mergeEvents cm sigma tau newconf path) ∧
  Forall (fun e => (EventType e = Update ∨ EventType e = Delete) ∧
                   is_Some (Configurations cm !! Key e))
         (loopEvents (files cm) newconf path sigma) ∧
  Forall (fun e => EventType e = Create ∧ Configurations cm !! Key e = None)
         (createEvents (Configurations cm) tau).
Proof.
  intros Hs Ht.
  assert (Forall (fun e => (EventType e = Update ∨ EventType e = Delete) ∧
                           is_Some (Configurations cm !! Key e))
                 (loopEvents (files cm) newconf path sigma)) as Hloop.
  { apply loopEvents_Forall. intros k x Hk.
    by apply (traversal_elem_of _ _ _ _ Hs). }
  pose proof (createEvents_Forall (Configurations cm) tau) as Hcreate.
  split; [|done].
  unfold mergeEvents. rewrite fmap_app. apply NoDup_app. split_and!.
  - eapply sublist_NoDup; [|apply loopEvents_keys_sublist].
    by eapply traversal_NoDup.
  - intros k Hk1 Hk2.
    apply list_elem_of_fmap in Hk1 as (e1 & -> & He1).
    apply list_elem_of_fmap in Hk2 as (e2 & Hkey & He2).
    rewrite Forall_forall in Hloop. rewrite Forall_forall in Hcreate.
    destruct (Hloop e1 He1) as [_ [x Hx]].
    destruct (Hcreate e2 He2) as [_ Hnone].
    congruence.
  - eapply sublist_NoDup; [|apply createEvents_keys_sublist].
    by eapply traversal_NoDup.
Qed.

(** *** Runs *)

Lemma merge_run_keyOrder cm newconf path :
  merge_run cm newconf path (compareUpdate cm newconf path).
Proof.
  exists (map_to_list (Configurations cm)), (map_to_list newconf).
  unfold traversal. done.
Qed.

(** What holds of every run holds of the run in key order. *)
Lemma merge_yields_keyOrder cm newconf path Q :
  merge_yields cm newconf path Q →
  ∃ cm' events, compareUpdate cm newconf path = Done (cm', events) ∧ Q cm' events.
Proof. intros HQ. apply HQ, merge_run_keyOrder. Qed.

Lemma merge_yields_registered cm newconf path Q :
  store_ok (Configurations cm) → registered cm path →
  (∀ sigma tau,
     traversal sigma (Configurations cm) → traversal tau newconf →
     Q (merged cm newconf path) (mergeEvents cm sigma tau newconf path)) →
  merge_yields cm newconf path Q.
Proof.
  intros Hok Hreg HQ r Hrun.
  destruct (merge_run_registered _ _ _ _ Hok Hreg Hrun) as (sigma & tau & Hs & Ht & ->).
  eauto.
Qed.

Lemma merge_yields_unregistered cm newconf path Q :
  ¬ registered cm path → Q cm [] → merge_yields cm newconf path Q.
Proof.
  intros Hreg HQ r Hrun. rewrite (merge_run_unregistered _ _ _ _ Hreg Hrun). eauto.
Qed.

Lemma lookup_merged cm newconf path K :
  Configurations (merged cm newconf path) !! K =
  diag_None (mergeBinding (files cm) path (lookupPriority (files cm) path))
            (Configurations cm !! K) (newconf !! K).
Proof. unfold merged, mergedStore. cbn. by rewrite lookup_merge. Qed.

Lemma merged_store_ok cm newconf path :
  store_ok (Configurations cm) → store_ok (Configurations (merged cm newconf path)).
Proof. apply mergedStore_ok. Qed.

Lemma lookup_GetConfigurations cm K :
  GetConfigurations cm !! K =
  match Configurations cm !! K with
  | Some (Some ci) => Some (Some (Value ci))
  | Some None => Some None
  | None => None
  end.
Proof.
  unfold GetConfigurations. rewrite lookup_fmap.
  by destruct (Configurations cm !! K) as [[ci|]|].
Qed.

(** *** Merging the same mapping again *)





(** *** Reading a key *)

Lemma GetConfigurationByKey_on_spec sigma key :
  NoDup sigma.*1 →
  Forall (fun entry => entry.2 ≠ None) sigma →
  GetConfigurationByKey_on sigma key =
  match (list_to_map sigma : gmap string (option (ConfigInfo Val))) !! key with
  | Some (Some ci) => Done (inl (Value ci))
  | _ => Done (inr "key does not exist"%string)
  end.
Proof.
  induction sigma as [|[k0 confInfo] rest IH]; intros Hnd Hok.
  - by rewrite list_to_map_nil, lookup_empty.
  - apply NoDup_cons in Hnd as [Hk0 Hnd].
    apply Forall_cons in Hok as [Hci Hok].
    destruct confInfo as [ci0|]; [|done].
    cbn [GetConfigurationByKey_on]. rewrite list_to_map_cons.
    case_bool_decide as Hkey.
    + subst k0. by rewrite lookup_insert_eq.
    + rewrite lookup_insert_ne by done. by apply IH.
Qed.

End MergeProofs.

(** * The claims *)

Section Claims.
Context {Val : Type} `{!EqDecision Val}.
Implicit Types (cm : configMapSource Val) (ci : ConfigInfo Val).
Implicit Types (newconf M : gmap string Val) (path key K S A B : string).
Implicit Types (sigma : list (string * option (ConfigInfo Val))).
Implicit Types (tau : list (string * Val)) (events : list (Event Val)).
Implicit Types (v va vb : Val).

(** C8. A merge for a source path that has no entry in the source registry
    leaves the store as it is and produces no event, whatever the store
    holds and in whatever order the maps are enumerated. *)
Theorem unregistered_merge_noop cm sigma tau newconf path :
  isFileSrcExist cm path = false →
  compareUpdate_on cm sigma tau newconf path = Done (cm, []).
Proof.
  intros Hno. apply compareUpdate_on_unregistered.
  by apply lookupPriority_absent.
Qed.


(** C2, amended. When a merge for the registered source path [S] meets an
    entry for [K] owned by a different source of the same priority and the
    new mapping of [S] defines [K], the entry's value becomes the value of
    [S], no event about [K] is emitted, and the entry keeps the owning path
    it had. *)
Theorem equal_priority_overwrites_silently cm newconf S K ci v :
  store_ok (Configurations cm) →
  registered cm S →
  Configurations cm !! K = Some (Some ci) →
  FilePath ci ≠ S →
  lookupPriority (files cm) (FilePath ci) = lookupPriority (files cm) S →
  newconf !! K = Some v →
  merge_yields cm newconf S (fun cm' events =>
    Configurations cm' !! K = Some (Some {| FilePath := FilePath ci; Value := v |}) ∧
    eventsFor K events = []).
Proof.
  intros Hok Hreg HK Hown Hprio Hnew.
  apply merge_yields_registered; [done..|]. intros sigma tau Hs Ht. split.
  - rewrite lookup_merged, HK, Hnew. cbn. unfold keptEntry.
    by rewrite bool_decide_eq_false_2, bool_decide_eq_true_2.
  - rewrite eventsFor_mergeEvents by done. unfold keyEvents, entryEvents.
    by rewrite HK, Hnew, bool_decide_eq_false_2, bool_decide_eq_true_2.
Qed.

(** C3, amended. When a merge for the registered source path [S] of
    priority [P] meets an entry for [K] owned by a different source of
    strictly larger priority value and the new mapping of [S] defines [K],
    the entry's value is replaced, exactly one event about [K] is emitted,
    an Update with the new value, and the entry keeps the owning path it
    had. *)
Theorem higher_priority_overwrites_with_update cm newconf S K ci v :
  store_ok (Configurations cm) →
  registered cm S →
  Configurations cm !! K = Some (Some ci) →
  FilePath ci ≠ S →
  lookupPriority (files cm) S < lookupPriority (files cm) (FilePath ci) →
  newconf !! K = Some v →
  merge_yields cm newconf S (fun cm' events =>
    Configurations cm' !! K = Some (Some {| FilePath := FilePath ci; Value := v |}) ∧
    eventsFor K events = [event K Update v]).
Proof.
  intros Hok Hreg HK Hown Hprio Hnew.
  apply merge_yields_registered; [done..|]. intros sigma tau Hs Ht. split.
  - rewrite lookup_merged, HK, Hnew. cbn. unfold keptEntry.
    rewrite bool_decide_eq_false_2 by done.
    rewrite bool_decide_eq_false_2 by lia.
    by rewrite bool_decide_eq_true_2.
  - rewrite eventsFor_mergeEvents by done. unfold keyEvents, entryEvents.
    rewrite HK, Hnew, bool_decide_eq_false_2 by done.
    rewrite bool_decide_eq_false_2 by lia.
    by rewrite bool_decide_eq_true_2.
Qed.


(** C9. In the events of one merge no key occurs twice, and the Update
    and Delete events, all about keys the store had, come before the Create
    events, all about keys the store lacked. *)
Theorem event_batch_consistent cm newconf path :
  store_ok (Configurations cm) →
  merge_yields cm newconf path (fun _ events =>
    NoDup (Key <$> events) ∧
    ∃ changes creates,
      events = changes ++ creates ∧
      Forall (fun e => (EventType e = Update ∨ EventType e = Delete) ∧
                       is_Some (Configurations cm !! Key e)) changes ∧
      Forall (fun e => EventType e = Create ∧
                       Configurations cm !! Key e = None) creates).
Proof.
  intros Hok. destruct (decide (registered cm path)) as [Hreg|Hreg].
  - apply merge_yields_registered; [done..|]. intros sigma tau Hs Ht.
    destruct (mergeEvents_shape cm sigma tau newconf path Hs Ht) as (Hnd & Hl & Hc).
    split; [done|].
    by exists (loopEvents (files cm) newconf path sigma),
              (createEvents (Configurations cm) tau).
  - apply merge_yields_unregistered; [done|]. split; [constructor|].
    by exists [], [].
Qed.


(** C10. A store built from the empty one by registrations and merges has
    no nil entry.  On such a store no enumeration makes a merge or
    [GetConfigurationByKey] reach its nil branch: every merge ends, and
    [GetConfigurationByKey] returns the stored value of a key the store has
    and the error for a key it lacks. *)
Theorem built_store_never_nil cm :
  built cm →
  store_ok (Configurations cm) ∧
  (∀ newconf path, merge_yields cm newconf path (fun cm' _ =>
     store_ok (Configurations cm'))) ∧
  (∀ sigma key, traversal sigma (Configurations cm) →
     (∀ confInfo, Configurations cm !! key = Some confInfo →
        ∃ ci, confInfo = Some ci ∧
              GetConfigurationByKey_on sigma key = Done (inl (Value ci))) ∧
     (Configurations cm !! key = None →
        GetConfigurationByKey_on sigma key = Done (inr "key does not exist"%string))).
Proof.
  intros Hbuilt. pose proof (built_store_ok cm Hbuilt) as Hok.
  split; [done|]. split.
  - intros newconf path.
    destruct (decide (registered cm path)) as [Hreg|Hreg].
    + apply merge_yields_registered; [done..|]. intros _ _ _ _.
      by apply merged_store_ok.
    + by apply merge_yields_unregistered.
  - intros sigma key Hs.
    rewrite (GetConfigurationByKey_on_spec sigma key (traversal_NoDup _ _ Hs)
               (traversal_store_ok _ _ Hs Hok)).
    rewrite (traversal_list_to_map _ _ Hs). split.
    + intros confInfo Hkey. rewrite Hkey.
      destruct confInfo as [ci|]; [by exists ci|by destruct (Hok key None Hkey)].
    + by intros ->.
Qed.

End Claims.

(** * The registry and the walk *)

Section Registry.
Context {Val : Type}.
Implicit Types (cm : configMapSource Val).

(** The loop of [handlePriority] copies every entry, and puts a new entry
    before each one that has the path and the priority. *)
Lemma handlePriority_loop_spec path prio fs acc set :
  foldl (handlePriority_step path prio) (acc, set) fs =
  (acc ++ flat_map (fun f =>
             if bool_decide (filePath f = path) && bool_decide (priority f = prio)
             then [mkFile path prio; f] else [f]) fs,
   set || existsb (fun f => bool_decide (filePath f = path) &&
                            bool_decide (priority f = prio)) fs).
Proof.
  revert acc set. induction fs as [|f fs IH]; intros acc set.
  - cbn. by rewrite app_nil_r, orb_false_r.
  - cbn [foldl flat_map existsb]. unfold handlePriority_step at 2.
    destruct (bool_decide (filePath f = path) && bool_decide (priority f = prio)).
    + rewrite IH. cbn. rewrite <- !app_assoc. cbn. by rewrite orb_true_r.
    + rewrite IH. cbn. by rewrite <- !app_assoc.
Qed.

(** Every entry of the registry survives a registration. *)
Lemma handlePriority_keeps_entries fs path prio f :
  f ∈ fs → f ∈ handlePriority_files fs path prio.
Proof.
  intros Hf. unfold handlePriority_files.
  rewrite handlePriority_loop_spec. cbn [app orb].
  assert (f ∈ flat_map (fun f =>
             if bool_decide (filePath f = path) && bool_decide (priority f = prio)
             then [mkFile path prio; f] else [f]) fs) as Hflat.
  { apply list_elem_of_In, in_flat_map. exists f. split; [by apply list_elem_of_In|].
    destruct (_ && _); cbn; auto. }
  destruct (existsb _ fs); [done|]. apply elem_of_app. by left.
Qed.

(** A path registered at another priority only keeps its old entry and
    gets one more. *)
Lemma handlePriority_other_priority fs path prio :
  Forall (fun f => ¬ (filePath f = path ∧ priority f = prio)) fs →
  handlePriority_files fs path prio = fs ++ [mkFile path prio].
Proof.
  intros Hno. unfold handlePriority_files.
  rewrite handlePriority_loop_spec. cbn [app orb].
  assert (existsb (fun f => bool_decide (filePath f = path) &&
                            bool_decide (priority f = prio)) fs = false
          ∧ flat_map (fun f =>
             if bool_decide (filePath f = path) && bool_decide (priority f = prio)
             then [mkFile path prio; f] else [f]) fs = fs) as [-> ->]; [|done].
  induction Hno as [|f fs Hf _ [IH1 IH2]]; [done|].
  cbn [existsb flat_map]. rewrite IH1, IH2.
  assert (bool_decide (filePath f = path) && bool_decide (priority f = prio) = false)
    as ->; [|done].
  apply andb_false_iff.
  destruct (decide (filePath f = path)) as [Hp|Hp].
  - right. apply bool_decide_eq_false_2. naive_solver.
  - left. by apply bool_decide_eq_false_2.
Qed.

(** The priority the merges then read for the path is the new one. *)
Lemma lookupPriority_other_priority fs path prio :
  Forall (fun f => ¬ (filePath f = path ∧ priority f = prio)) fs →
  lookupPriority (handlePriority_files fs path prio) path = prio.
Proof.
  intros Hno. rewrite handlePriority_other_priority by done.
  rewrite lookupPriority_snoc. by rewrite bool_decide_eq_true_2.
Qed.

(** [handlePriority] returns no error. *)
Lemma handlePriority_no_error cm path prio : (handlePriority cm path prio).2 = None.
Proof. reflexivity. Qed.

End Registry.

Section Walk.
Context {Val : Type} `{!EqDecision Val}.

(** Whatever the walk returns, [AddFile] returns no error once the root
    path has been resolved. *)
Lemma AddFile_returns_nil_after_walk (it : iteration Val) (cm : configMapSource Val)
    path nodes prio :
  match AddFile it cm (inr path) nodes prio with
  | Done r => r.2 = None
  | Panic => True
  end.
Proof.
  unfold AddFile. destruct (isFileSrcExist cm path); [done|].
  by destruct (Walk it cm nodes prio []).
Qed.

(** A node that is neither a regular file nor a directory ends the walk
    with the "not supported" error and leaves the state as it is. *)
Lemma walkFn_unsupported (it : iteration Val) (cm : configMapSource Val) n prio :
  walkErr n = None → notExist n = false →
  getFileType (nodeStat n) = InvalidFileType →
  walkFn it cm n prio = Done (cm, [], Some (notSupportedError (nodePath n))).
Proof. intros He Hn Ht. unfold walkFn. by rewrite He, Hn, Ht. Qed.

(** The walk stops at the first such node: the nodes before it have been
    handled, the nodes after it are not visited. *)
Lemma Walk_stops_at_unsupported (it : iteration Val) (cm cm1 : configMapSource Val)
    pre n post prio events0 events1 :
  Walk it cm pre prio events0 = Done (cm1, events1, None) →
  walkErr n = None → notExist n = false →
  getFileType (nodeStat n) = InvalidFileType →
  Walk it cm (pre ++ n :: post) prio events0 =
  Done (cm1, events1, Some (notSupportedError (nodePath n))).
Proof.
  intros Hpre He Hn Ht. revert cm events0 Hpre.
  induction pre as [|a pre IH]; intros cm events0 Hpre.
  - cbn in Hpre. simplify_eq. cbn [app Walk].
    rewrite walkFn_unsupported by done. cbn. by rewrite app_nil_r.
  - cbn [app Walk] in Hpre |- *.
    destruct (walkFn it cm a prio) as [[[cm2 events2] err]|]; [|done].
    cbn in Hpre |- *. destruct err as [e|]; [done|]. by apply IH.
Qed.

End Walk.

(** C4. [handlePriority] never returns an error, but it keeps the entries
    the path already has: registering [a.conf] again at the same priority
    leaves two entries for it, and so does registering it at another
    priority. *)
Theorem handlePriority_keeps_old_entries :
  let cm1 := (handlePriority (Val := string) NewConfigMapSource "a.conf" 1).1 in
  files cm1 = [mkFile "a.conf" 1] ∧
  handlePriority cm1 "a.conf" 1 =
    ({| Configurations := ∅;
        files := [mkFile "a.conf" 1; mkFile "a.conf" 1] |}, None) ∧
  handlePriority cm1 "a.conf" 2 =
    ({| Configurations := ∅;
        files := [mkFile "a.conf" 1; mkFile "a.conf" 2] |}, None).
Proof. split_and!; reflexivity. Qed.

(** C5. The walk of [AddFile] stops at a node that is neither a regular
    file nor a directory with the error "file type of ... not supported",
    the file loaded before it stays merged and the file after it is not
    loaded; but [AddFile] itself returns no error. *)
Theorem AddFile_drops_the_walk_error :
  Walk keyOrder NewConfigMapSource exWalk 5 [] =
    Done (afterAConf, [event "x" Create "1"%string],
          Some (notSupportedError "/conf/b.sock")) ∧
  AddFile keyOrder NewConfigMapSource (inr "/conf"%string) exWalk 5 =
    Done (afterAConf, [event "x" Create "1"%string], None).
Proof. split; vm_compute; reflexivity. Qed.

(** * The claims on the example data *)

Lemma lowStore_ok : store_ok (Configurations lowStore).
Proof. apply map_Forall_singleton. discriminate. Qed.


Lemma equal_priority_overwrites_silently_witness :
  ∃ cm' events,
    compareUpdate lowStore peerMapping peerConf = Done (cm', events) ∧
    Configurations cm' !! "y"%string =
      Some (Some {| FilePath := lowConf; Value := "c"%string |}) ∧
    eventsFor "y" events = [].
Proof.
  apply merge_yields_keyOrder.
  apply (equal_priority_overwrites_silently lowStore peerMapping peerConf "y"
           lowEntry "c").
  - exact lowStore_ok.
  - vm_compute. discriminate.
  - reflexivity.
  - vm_compute. discriminate.
  - vm_compute. reflexivity.
  - reflexivity.
Defined.

(** C2 as stated fails: after the merge for [peer.conf], the entry of [y]
    is still attributed to [low.conf]. *)
Lemma equal_priority_owner_counterexample :
  ¬ ∃ cm' events ci,
      compareUpdate lowStore peerMapping peerConf = Done (cm', events) ∧
      Configurations cm' !! "y"%string = Some (Some ci) ∧
      FilePath ci = peerConf.
Proof.
  intros (cm' & events & ci & Hrun & Hy & Hown).
  vm_compute in Hrun. injection Hrun as <- <-.
  vm_compute in Hy. injection Hy as <-.
  vm_compute in Hown. discriminate.
Qed.

Lemma higher_priority_overwrites_with_update_witness :
  ∃ cm' events,
    compareUpdate lowStore highMapping highConf = Done (cm', events) ∧
    Configurations cm' !! "y"%string =
      Some (Some {| FilePath := lowConf; Value := "b"%string |}) ∧
    eventsFor "y" events = [event "y" Update "b"%string].
Proof.
  apply merge_yields_keyOrder.
  apply (higher_priority_overwrites_with_update lowStore highMapping highConf "y"
           lowEntry "b").
  - exact lowStore_ok.
  - vm_compute. discriminate.
  - reflexivity.
  - vm_compute. discriminate.
  - vm_compute. reflexivity.
  - reflexivity.
Defined.

(** C3 as stated fails: after the merge for [high.conf], the entry of [y]
    is still attributed to [low.conf]. *)
Lemma higher_priority_owner_counterexample :
  ¬ ∃ cm' events ci,
      compareUpdate lowStore highMapping highConf = Done (cm', events) ∧
      Configurations cm' !! "y"%string = Some (Some ci) ∧
      FilePath ci = highConf.
Proof.
  intros (cm' & events & ci & Hrun & Hy & Hown).
  vm_compute in Hrun. injection Hrun as <- <-.
  vm_compute in Hy. injection Hy as <-.
  vm_compute in Hown. discriminate.
Qed.




Lemma unregistered_merge_noop_witness :
  compareUpdate lowStore highMapping "/conf/other.conf" = Done (lowStore, []).
Proof.
  apply (unregistered_merge_noop lowStore
           (map_to_list (Configurations lowStore)) (map_to_list highMapping)
           highMapping "/conf/other.conf").
  reflexivity.
Defined.

Lemma event_batch_consistent_witness :
  ∃ cm' events,
    compareUpdate lowStore (<["z"%string := "c"%string]> highMapping) highConf
      = Done (cm', events) ∧
    NoDup (Key <$> events) ∧
    ∃ changes creates,
      events = changes ++ creates ∧
      Forall (fun e => (EventType e = Update ∨ EventType e = Delete) ∧
                       is_Some (Configurations lowStore !! Key e)) changes ∧
      Forall (fun e => EventType e = Create ∧
                       Configurations lowStore !! Key e = None) creates.
Proof.
  apply merge_yields_keyOrder.
  apply (event_batch_consistent lowStore (<["z"%string := "c"%string]> highMapping)
           highConf).
  exact lowStore_ok.
Defined.

Lemma built_store_never_nil_witness :
  store_ok (Configurations lowStore) ∧
  (∀ newconf path, merge_yields lowStore newconf path (fun cm' _ =>
     store_ok (Configurations cm'))) ∧
  (∀ sigma key, traversal sigma (Configurations lowStore) →
     (∀ confInfo, Configurations lowStore !! key = Some confInfo →
        ∃ ci, confInfo = Some ci ∧
              GetConfigurationByKey_on sigma key = Done (inl (Value ci))) ∧
     (Configurations lowStore !! key = None →
        GetConfigurationByKey_on sigma key = Done (inr "key does not exist"%string))).
Proof.
  apply (built_store_never_nil lowStore).
  apply (built_merge emptyStore (map_to_list ∅) (map_to_list lowMapping)
           lowMapping lowConf lowStore [event "y" Create "a"%string]).
  - apply built_new.
  - unfold traversal. reflexivity.
  - unfold traversal. reflexivity.
  - vm_compute. reflexivity.
Defined.

(** * More of the merge *)

Section MergeCases.
Context {Val : Type} `{!EqDecision Val}.
Implicit Types (cm : configMapSource Val) (ci : ConfigInfo Val).
Implicit Types (newconf M : gmap string Val) (path key K S A B : string).
Implicit Types (sigma : list (string * option (ConfigInfo Val))).
Implicit Types (tau : list (string * Val)) (events : list (Event Val)).
Implicit Types (v va vb : Val).

Ltac binding_cases :=
  repeat (progress (unfold keptEntry, entryEvents, DeepEqual, withValue; cbn)
          || (case_bool_decide; cbn));
  simplify_eq; try done; try lia.

(** X1. A merge for [S] whose mapping lacks [K] leaves an entry of [K]
    that another source owns as it is, and reports nothing about [K]. *)
Theorem absent_key_of_other_source_untouched cm newconf S K ci :
  store_ok (Configurations cm) →
  Configurations cm !! K = Some (Some ci) →
  FilePath ci ≠ S →
  newconf !! K = None →
  merge_yields cm newconf S (fun cm' events =>
    Configurations cm' !! K = Some (Some ci) ∧ eventsFor K events = []).
Proof.
  intros Hok HK Hown Hnew.
  destruct (decide (registered cm S)) as [Hreg|Hreg].
  - apply merge_yields_registered; [done..|]. intros sigma tau Hs Ht. split.
    + rewrite lookup_merged, HK, Hnew. cbn. unfold keptEntry.
      by rewrite bool_decide_eq_false_2.
    + rewrite eventsFor_mergeEvents by done. unfold keyEvents, entryEvents.
      by rewrite HK, Hnew, bool_decide_eq_false_2.
  - by apply merge_yields_unregistered.
Qed.

(** X2. A merge for [S] does not touch an entry owned by a source whose
    priority value is strictly smaller than that of [S], even when the
    mapping of [S] defines the key: the value stays and there is no
    event. *)
Theorem lower_priority_value_discarded cm newconf S K ci v :
  store_ok (Configurations cm) →
  Configurations cm !! K = Some (Some ci) →
  lookupPriority (files cm) (FilePath ci) < lookupPriority (files cm) S →
  newconf !! K = Some v →
  merge_yields cm newconf S (fun cm' events =>
    Configurations cm' !! K = Some (Some ci) ∧ eventsFor K events = []).
Proof.
  intros Hok HK Hprio Hnew.
  assert (FilePath ci ≠ S) as Hown by (intros Heq; rewrite Heq in Hprio; lia).
  destruct (decide (registered cm S)) as [Hreg|Hreg].
  - apply merge_yields_registered; [done..|]. intros sigma tau Hs Ht. split.
    + rewrite lookup_merged, HK, Hnew. cbn.
      by rewrite keptEntry_other_lower.
    + rewrite eventsFor_mergeEvents by done. unfold keyEvents, entryEvents.
      rewrite HK, Hnew, bool_decide_eq_false_2 by done.
      rewrite bool_decide_eq_false_2 by lia.
      by rewrite bool_decide_eq_false_2 by lia.
  - by apply merge_yields_unregistered.
Qed.


(** X4. A merge for the registered source [S] whose mapping defines a key
    the store lacks adds an entry owned by [S] with that value and reports
    exactly one event about the key, a Create with the value. *)
Theorem new_key_created cm newconf S K v :
  store_ok (Configurations cm) →
  registered cm S →
  Configurations cm !! K = None →
  newconf !! K = Some v →
  merge_yields cm newconf S (fun cm' events =>
    Configurations cm' !! K = Some (Some {| FilePath := S; Value := v |}) ∧
    eventsFor K events = [event K Create v]).
Proof.
  intros Hok Hreg HK Hnew.
  apply merge_yields_registered; [done..|]. intros sigma tau Hs Ht. split.
  - by rewrite lookup_merged, HK, Hnew.
  - rewrite eventsFor_mergeEvents by done. unfold keyEvents.
    by rewrite HK, Hnew.
Qed.

(** The first loop panics as soon as the traversal holds a nil entry. *)
Lemma compareUpdate_loop_nil fs newconf path P sigma st k :
  (k, None) ∈ sigma → compareUpdate_loop fs newconf path P sigma st = Panic.
Proof.
  revert st. induction sigma as [|[k0 confInfo] rest IH]; intros st Hin.
  - by apply elem_of_nil in Hin.
  - cbn [compareUpdate_loop]. destruct st as [fc events].
    destruct confInfo as [ci|]; [|done].
    rewrite compareUpdate_step_Some. cbn [mbind outcome_bind].
    apply IH. apply elem_of_cons in Hin as [Hin|Hin]; [done|done].
Qed.

Lemma compareUpdate_on_nil cm sigma tau newconf path :
  traversal sigma (Configurations cm) →
  registered cm path →
  ¬ store_ok (Configurations cm) →
  compareUpdate_on cm sigma tau newconf path = Panic.
Proof.
  intros Hs Hreg Hnil. unfold compareUpdate_on.
  rewrite bool_decide_eq_false_2 by done.
  assert (∃ k, Configurations cm !! k = Some None) as [k Hk].
  { apply map_not_Forall in Hnil as (k & x & Hk & Hx); [|apply _].
    exists k. destruct x; [by destruct Hx|done]. }
  apply (traversal_elem_of _ _ _ _ Hs) in Hk.
  by rewrite (compareUpdate_loop_nil _ _ _ _ _ _ _ Hk).
Qed.

Lemma mergeEvents_Permutation cm sigma sigma' tau tau' newconf path :
  sigma ≡ₚ sigma' → tau ≡ₚ tau' →
  mergeEvents cm sigma tau newconf path ≡ₚ mergeEvents cm sigma' tau' newconf path.
Proof.
  intros Hs Ht. unfold mergeEvents, loopEvents, createEvents.
  apply Permutation_app; by apply Permutation_flat_map.
Qed.

(** X5. The order in which Go enumerates the two maps does not matter to
    a merge: two runs from the same state either both panic, or end in the
    same state with the same events up to their order. *)
Theorem merge_independent_of_enumeration cm newconf S r1 r2 :
  merge_run cm newconf S r1 →
  merge_run cm newconf S r2 →
  (r1 = Panic ∧ r2 = Panic) ∨
  ∃ cm' events1 events2,
    r1 = Done (cm', events1) ∧ r2 = Done (cm', events2) ∧ events1 ≡ₚ events2.
Proof.
  intros (sigma1 & tau1 & Hs1 & Ht1 & ->) (sigma2 & tau2 & Hs2 & Ht2 & ->).
  destruct (decide (registered cm S)) as [Hreg|Hreg].
  - destruct (decide (store_ok (Configurations cm))) as [Hok|Hnil].
    + right. rewrite !compareUpdate_on_registered by done.
      eexists _, _, _. split_and!; [done..|].
      apply mergeEvents_Permutation.
      * unfold traversal in *. by rewrite Hs1, Hs2.
      * unfold traversal in *. by rewrite Ht1, Ht2.
    + left. by rewrite !compareUpdate_on_nil.
  - right. exists cm, [], []. split_and!; [| |done];
      apply compareUpdate_on_unregistered;
      unfold registered in Hreg;
      by destruct (decide (lookupPriority (files cm) S = MaxUint32)).
Qed.

(** X6. A merge never changes the registry and never changes the owning
    path of an entry: an entry found after the merge under a key the store
    had before keeps the owner it had, and an entry under a new key is
    owned by the merged path and holds the value of its mapping. *)
Theorem merge_keeps_registry_and_owners cm newconf S :
  store_ok (Configurations cm) →
  merge_yields cm newconf S (fun cm' _ =>
    files cm' = files cm ∧
    ∀ K ci', Configurations cm' !! K = Some (Some ci') →
      match Configurations cm !! K with
      | Some (Some ci) => FilePath ci' = FilePath ci
      | _ => FilePath ci' = S ∧ newconf !! K = Some (Value ci')
      end).
Proof.
  intros Hok. destruct (decide (registered cm S)) as [Hreg|Hreg].
  - apply merge_yields_registered; [done..|]. intros _ _ _ _.
    split; [done|]. intros K ci'. rewrite lookup_merged.
    destruct (Configurations cm !! K) as [[[owner value]|]|] eqn:HK,
             (newconf !! K) as [v|]; cbn;
      try (by destruct (Hok K None HK)); try done.
    + binding_cases; intros; by simplify_eq.
    + binding_cases; intros; by simplify_eq.
    + intros; by simplify_eq.
  - apply merge_yields_unregistered; [done|]. split; [done|].
    intros K ci' HK. rewrite HK. done.
Qed.

(** X7. The keys of the store after a merge for a registered path [S]:
    those of the mapping of [S], and those that other paths own.  So every
    key of the mapping is served afterwards, and the keys [S] owned and no
    longer defines are gone. *)
Theorem merge_domain cm newconf S :
  store_ok (Configurations cm) →
  registered cm S →
  merge_yields cm newconf S (fun cm' _ =>
    ∀ K, is_Some (Configurations cm' !! K) ↔
         is_Some (newconf !! K) ∨
         ∃ ci, Configurations cm !! K = Some (Some ci) ∧ FilePath ci ≠ S).
Proof.
  intros Hok Hreg.
  apply merge_yields_registered; [done..|]. intros _ _ _ _ K.
  rewrite lookup_merged.
  destruct (Configurations cm !! K) as [[[owner value]|]|] eqn:HK,
           (newconf !! K) as [v|]; cbn;
    try (by destruct (Hok K None HK)).
  - split; [eauto|]. intros _. binding_cases; eauto.
  - binding_cases; split.
    + by intros [? ?].
    + intros [[? ?]|(ci & ? & ?)]; [done|]. by simplify_eq.
    + intros _. right. eexists. split; [done|]. done.
    + eauto.
  - split; eauto.
  - split; [by intros [? ?]|]. intros [[? ?]|(ci & ? & ?)]; done.
Qed.


(** X9. The events of a merge tell what the store holds afterwards: a
    Create or an Update carries the value now stored under its key, a
    Delete names a key that is gone and carries the value it had, and
    every event names this source. *)
Theorem events_report_the_store cm newconf S :
  store_ok (Configurations cm) →
  merge_yields cm newconf S (fun cm' events =>
    ∀ e, e ∈ events →
      EventSource e = ConfigMapConfigSourceConst ∧
      match EventType e with
      | Delete =>
          Configurations cm' !! Key e = None ∧
          ∃ ci, Configurations cm !! Key e = Some (Some ci) ∧
                EventValue e = Value ci
      | _ => GetConfigurations cm' !! Key e = Some (Some (EventValue e))
      end).
Proof.
  intros Hok. destruct (decide (registered cm S)) as [Hreg|Hreg].
  - apply merge_yields_registered; [done..|]. intros sigma tau Hs Ht e He.
    assert (e ∈ eventsFor (Key e) (mergeEvents cm sigma tau newconf S)) as HeK.
    { by apply list_elem_of_filter. }
    rewrite eventsFor_mergeEvents in HeK by done. unfold keyEvents in HeK.
    rewrite lookup_GetConfigurations, lookup_merged.
    clear He. set (k := Key e) in *. clearbody k.
    destruct (Configurations cm !! k) as [[[owner value]|]|] eqn:HK,
             (newconf !! k) as [v|] eqn:Hnew; cbn in HeK |- *;
      try (by apply elem_of_nil in HeK).
    + revert HeK. binding_cases; intros HeK;
        try (by apply elem_of_nil in HeK);
        apply list_elem_of_singleton in HeK; subst e; cbn in *;
        rewrite ?HK, ?Hnew; cbn; binding_cases.
    + revert HeK. binding_cases; intros HeK;
        try (by apply elem_of_nil in HeK);
        apply list_elem_of_singleton in HeK; subst e; cbn in *;
        rewrite ?HK, ?Hnew; cbn; binding_cases.
      split; [done|]. split; [done|]. by eexists.
    + apply list_elem_of_singleton in HeK. by subst e.
  - apply merge_yields_unregistered; [done|]. by intros e ?%elem_of_nil.
Qed.

(** X10. Reading back what a merge stored: after a merge for a registered
    path whose mapping defines [K], [GetConfigurationByKey] returns a value
    for [K], whatever the enumeration; it is the value of the mapping as
    soon as no other source owned [K] with a strictly smaller priority
    value. *)
Theorem merged_key_is_readable cm newconf S K v :
  store_ok (Configurations cm) →
  registered cm S →
  newconf !! K = Some v →
  merge_yields cm newconf S (fun cm' _ =>
    ∀ sigma', traversal sigma' (Configurations cm') →
      ∃ w, GetConfigurationByKey_on sigma' K = Done (inl w) ∧
           GetConfigurations cm' !! K = Some (Some w) ∧
           ((∀ ci, Configurations cm !! K = Some (Some ci) →
                   FilePath ci = S ∨
                   lookupPriority (files cm) S ≤ lookupPriority (files cm) (FilePath ci)) →
            w = v)).
Proof.
  intros Hok Hreg Hnew.
  apply merge_yields_registered; [done..|]. intros _ _ _ _ sigma' Hs'.
  pose proof (merged_store_ok cm newconf S Hok) as Hok'.
  rewrite (GetConfigurationByKey_on_spec sigma' K (traversal_NoDup _ _ Hs')
             (traversal_store_ok _ _ Hs' Hok')).
  rewrite (traversal_list_to_map _ _ Hs').
  rewrite lookup_GetConfigurations, lookup_merged, Hnew.
  destruct (Configurations cm !! K) as [[[owner value]|]|] eqn:HK; cbn;
    try (by destruct (Hok K None HK)).
  - binding_cases; eexists; (split; [done|]); (split; [done|]); intros Hprio;
      try done; destruct (Hprio _ eq_refl) as [?|?]; cbn in *; try done; lia.
  - eexists. split; [done|]. split; [done|]. done.
Qed.

End MergeCases.

(** * More of the registry *)

Section RegistryCases.
Context {Val : Type}.
Implicit Types (cm : configMapSource Val) (fs : list file).

Lemma sameEntry_true path prio f : sameEntry path prio f = true ↔ f = mkFile path prio.
Proof.
  unfold sameEntry. rewrite andb_true_iff, !bool_decide_eq_true.
  destruct f as [p q]; cbn. split; [by intros [-> ->]|by intros [= -> ->]].
Qed.

Lemma existsb_sameEntry path prio fs :
  existsb (sameEntry path prio) fs = bool_decide (mkFile path prio ∈ fs).
Proof.
  induction fs as [|f fs IH]; [done|]. cbn [existsb]. rewrite IH.
  destruct (sameEntry path prio f) eqn:Hf.
  - apply sameEntry_true in Hf as ->. cbn.
    symmetry. apply bool_decide_eq_true_2. by left.
  - cbn. apply bool_decide_ext. rewrite elem_of_cons.
    split; [by right|]. intros [Heq|?]; [|done].
    symmetry in Heq. apply sameEntry_true in Heq. congruence.
Qed.

(** The registry after a registration, in closed form. *)
Lemma handlePriority_files_eq fs path prio :
  handlePriority_files fs path prio =
  flat_map (fun f => if sameEntry path prio f then [mkFile path prio; f] else [f]) fs
  ++ (if bool_decide (mkFile path prio ∈ fs) then [] else [mkFile path prio]).
Proof.
  unfold handlePriority_files. rewrite handlePriority_loop_spec. cbn [app orb].
  fold (sameEntry path prio). rewrite existsb_sameEntry.
  case_bool_decide; by rewrite ?app_nil_r.
Qed.

Lemma isFileSrcExist_loop_app fs1 fs2 p :
  isFileSrcExist_loop (fs1 ++ fs2) p =
  isFileSrcExist_loop fs1 p || isFileSrcExist_loop fs2 p.
Proof.
  induction fs1 as [|f fs1 IH]; [done|]. cbn. by case_bool_decide.
Qed.

Lemma isFileSrcExist_loop_true fs p :
  isFileSrcExist_loop fs p = true ↔ p ∈ filePath <$> fs.
Proof.
  induction fs as [|f fs IH]; cbn.
  - split; [done|by intros ?%elem_of_nil].
  - rewrite elem_of_cons, <- IH. case_bool_decide as Hp.
    + split; [by left|done].
    + split; [by right|]. by intros [?|?].
Qed.

Lemma isFileSrcExist_loop_doubled fs path prio p :
  isFileSrcExist_loop
    (flat_map (fun f => if sameEntry path prio f then [mkFile path prio; f] else [f]) fs) p
  = isFileSrcExist_loop fs p.
Proof.
  induction fs as [|f fs IH]; [done|]. cbn [flat_map].
  rewrite isFileSrcExist_loop_app, IH.
  destruct (sameEntry path prio f) eqn:Hf; cbn.
  - apply sameEntry_true in Hf as ->. cbn. by case_bool_decide.
  - by case_bool_decide.
Qed.

Lemma lookupPriority_from_app fs1 fs2 p acc :
  foldl (fun acc f => if bool_decide (filePath f = p) then priority f else acc)
        acc (fs1 ++ fs2) =
  foldl (fun acc f => if bool_decide (filePath f = p) then priority f else acc)
        (foldl (fun acc f => if bool_decide (filePath f = p) then priority f else acc)
               acc fs1) fs2.
Proof. apply foldl_app. Qed.

Lemma lookupPriority_doubled fs path prio p acc :
  foldl (fun acc f => if bool_decide (filePath f = p) then priority f else acc) acc
    (flat_map (fun f => if sameEntry path prio f then [mkFile path prio; f] else [f]) fs)
  = foldl (fun acc f => if bool_decide (filePath f = p) then priority f else acc) acc fs.
Proof.
  revert acc. induction fs as [|f fs IH]; intros acc; [done|].
  cbn [flat_map]. rewrite lookupPriority_from_app, IH.
  destruct (sameEntry path prio f) eqn:Hf; [|done].
  apply sameEntry_true in Hf as ->. cbn. by case_bool_decide.
Qed.

Lemma isFileSrcExist_loop_registered fs path prio p :
  isFileSrcExist_loop (handlePriority_files fs path prio) p =
  isFileSrcExist_loop fs p || bool_decide (p = path).
Proof.
  rewrite handlePriority_files_eq, isFileSrcExist_loop_app, isFileSrcExist_loop_doubled.
  destruct (decide (mkFile path prio ∈ fs)) as [Hin|Hin].
  - rewrite (bool_decide_eq_true_2 _ Hin). cbn [isFileSrcExist_loop].
    rewrite orb_false_r. case_bool_decide as Hp; [|by rewrite orb_false_r].
    subst p. rewrite orb_true_r. apply isFileSrcExist_loop_true.
    apply list_elem_of_fmap. by exists (mkFile path prio).
  - rewrite (bool_decide_eq_false_2 _ Hin). cbn [isFileSrcExist_loop filePath].
    by case_bool_decide.
Qed.

Lemma lookupPriority_registered fs path prio p :
  lookupPriority (handlePriority_files fs path prio) p =
  if bool_decide (p = path ∧ mkFile path prio ∉ fs) then prio
  else lookupPriority fs p.
Proof.
  rewrite handlePriority_files_eq. unfold lookupPriority.
  rewrite lookupPriority_from_app, lookupPriority_doubled.
  destruct (decide (mkFile path prio ∈ fs)) as [Hin|Hin].
  - rewrite (bool_decide_eq_true_2 _ Hin). cbn [foldl].
    rewrite bool_decide_eq_false_2; [done|]. by intros [_ ?].
  - rewrite (bool_decide_eq_false_2 _ Hin). cbn [foldl filePath priority].
    destruct (decide (p = path)) as [->|Hp].
    + by rewrite !bool_decide_eq_true_2.
    + rewrite bool_decide_eq_false_2 by congruence.
      rewrite bool_decide_eq_false_2; [done|]. by intros [? _].
Qed.

(** X11. Registration adds the path to the paths [isFileSrcExist] knows,
    and changes nothing for the other paths. *)
Theorem handlePriority_registers_path cm path prio p :
  isFileSrcExist (handlePriority cm path prio).1 p =
  isFileSrcExist cm p || bool_decide (p = path).
Proof. apply isFileSrcExist_loop_registered. Qed.

(** X12. The priority the merges read after a registration: the new
    priority for the registered path, unless the registry already held the
    very entry (path and priority), in which case the path keeps the
    priority of its last entry; the priorities of the other paths do not
    change. *)
Theorem handlePriority_effective_priority cm path prio p :
  lookupPriority (files (handlePriority cm path prio).1) p =
  if bool_decide (p = path ∧ mkFile path prio ∉ files cm) then prio
  else lookupPriority (files cm) p.
Proof. apply lookupPriority_registered. Qed.

(** X13. The registry never shrinks and never replaces: a registration
    adds one entry when the registry does not hold the entry yet, and
    otherwise one more copy of the entry for each copy the registry
    holds. *)
Theorem handlePriority_registry_grows cm path prio :
  length (files (handlePriority cm path prio).1) =
  (length (files cm) +
   Nat.max 1 (length (filter (fun f => f = mkFile path prio) (files cm))))%nat.
Proof.
  unfold handlePriority. cbn [fst files]. rewrite handlePriority_files_eq.
  rewrite length_app.
  assert (length (flat_map (fun f =>
            if sameEntry path prio f then [mkFile path prio; f] else [f]) (files cm))
          = (length (files cm) +
             length (filter (fun f => f = mkFile path prio) (files cm)))%nat) as ->.
  { induction (files cm) as [|f fs IH]; [done|].
    cbn [flat_map]. rewrite length_app, IH, filter_cons.
    destruct (sameEntry path prio f) eqn:Hf.
    - apply sameEntry_true in Hf as ->. rewrite decide_True by done. cbn. lia.
    - rewrite decide_False; [cbn; lia|].
      intros Heq. apply sameEntry_true in Heq. congruence. }
  destruct (decide (mkFile path prio ∈ files cm)) as [Hin|Hin];
    [rewrite (bool_decide_eq_true_2 _ Hin)|rewrite (bool_decide_eq_false_2 _ Hin)];
    cbn [length].
  - assert (0 < length (filter (fun f => f = mkFile path prio) (files cm)))%nat.
    { destruct (filter _ (files cm)) eqn:Hflt; [|cbn; lia].
      assert (mkFile path prio ∈ filter (fun f => f = mkFile path prio) (files cm))
        as Hf by (by apply list_elem_of_filter).
      rewrite Hflt in Hf. by apply elem_of_nil in Hf. }
    lia.
  - assert (filter (fun f => f = mkFile path prio) (files cm) = []) as ->.
    { clear -Hin. induction (files cm) as [|f fs IH]; [done|].
      apply not_elem_of_cons in Hin as [Hne Hin].
      rewrite filter_cons, decide_False by done. by apply IH. }
    cbn. lia.
Qed.

End RegistryCases.

(** * More of the walk *)

Section WalkCases.
Context {Val : Type} `{!EqDecision Val}.
Implicit Types (cm : configMapSource Val) (it : iteration Val).
Implicit Types (n : walkNode Val) (nodes pre post : list (walkNode Val)).
Implicit Types (events : list (Event Val)) (e : error).

(** A node on which the function of the walk returns an error changes
    nothing: in particular a file that cannot be read or parsed is not
    registered. *)
Lemma walkFn_error_changes_nothing it cm n prio cm' events e :
  walkFn it cm n prio = Done (cm', events, Some e) → cm' = cm ∧ events = [].
Proof.
  unfold walkFn, handleFile, handlePriority.
  destruct (walkErr n); [by intros [= <- <- _]|].
  destruct (notExist n); [by intros [= <- <- _]|].
  destruct (getFileType (nodeStat n)); [|done|by intros [= <- <- _]].
  destruct (nodeConf n); [by intros [= <- <- _]|].
  by destruct (compareUpdate_on _ _ _ _ _).
Qed.

(** X14. The walk handles the nodes in order and stops at the first one
    on which its function returns an error: that error is the result, the
    state is the one the earlier nodes left, the failing node adds nothing
    to it, and the later nodes are not visited. *)
Theorem Walk_stops_at_first_error it cm cm1 cm2 pre n post prio events0 events1 events2 e :
  Walk it cm pre prio events0 = Done (cm1, events1, None) →
  walkFn it cm1 n prio = Done (cm2, events2, Some e) →
  Walk it cm (pre ++ n :: post) prio events0 = Done (cm1, events1, Some e).
Proof.
  intros Hpre Hn.
  destruct (walkFn_error_changes_nothing _ _ _ _ _ _ _ Hn) as [-> ->].
  revert cm events0 Hpre.
  induction pre as [|a pre IH]; intros cm events0 Hpre.
  - cbn in Hpre. simplify_eq. cbn [app Walk]. rewrite Hn. cbn.
    by rewrite app_nil_r.
  - cbn [app Walk] in Hpre |- *.
    destruct (walkFn it cm a prio) as [[[cm3 events3] err]|]; [|done].
    cbn in Hpre |- *. destruct err as [e'|]; [done|]. by apply IH.
Qed.






(** A merge that ends leaves the registry as it is. *)
Lemma compareUpdate_on_files cm sigma tau newconf path cm' events :
  compareUpdate_on cm sigma tau newconf path = Done (cm', events) →
  files cm' = files cm.
Proof.
  unfold compareUpdate_on. case_bool_decide; [by intros [= <- _]|].
  destruct (compareUpdate_loop _ _ _ _ _ _) as [[fc evs]|]; [|done].
  cbn. destruct (addOrCreateConf _ _ _ _). by intros [= <- _].
Qed.

Lemma walkFn_registry it cm n prio cm' events err p :
  walkFn it cm n prio = Done (cm', events, err) →
  isFileSrcExist cm' p = true →
  isFileSrcExist cm p = true ∨ (nodePath n = p ∧ loadsFile n).
Proof.
  unfold walkFn, handleFile, loadsFile.
  destruct (walkErr n); [intros [= <- _ _]; by left|].
  destruct (notExist n); [intros [= <- _ _]; by left|].
  destruct (getFileType (nodeStat n)); [|intros [= <- _ _]; by left..].
  destruct (nodeConf n) as [e|config]; [intros [= <- _ _]; by left|].
  cbn [handlePriority].
  destruct (compareUpdate_on _ _ _ _ _) as [[cm1 ev1]|] eqn:Hrun; [|done].
  cbn. intros [= <- _ _]. apply compareUpdate_on_files in Hrun.
  unfold isFileSrcExist. rewrite Hrun. cbn [files].
  rewrite isFileSrcExist_loop_registered. intros [?|Hp%bool_decide_eq_true]%orb_true_iff.
  - by left.
  - right. split; [done|]. split_and!; [done..|by exists config].
Qed.

Lemma Walk_registry it cm nodes prio events0 cm' events err p :
  Walk it cm nodes prio events0 = Done (cm', events, err) →
  isFileSrcExist cm' p = true →
  isFileSrcExist cm p = true ∨ ∃ n, n ∈ nodes ∧ nodePath n = p ∧ loadsFile n.
Proof.
  revert cm events0. induction nodes as [|n nodes IH]; intros cm events0.
  - cbn. intros [= <- _ _]. by left.
  - cbn [Walk].
    destruct (walkFn it cm n prio) as [[[cm1 ev1] err1]|] eqn:Hn; [|done].
    cbn. destruct err1 as [e|].
    + intros [= <- _ _] Hp.
      destruct (walkFn_registry _ _ _ _ _ _ _ _ Hn Hp) as [?|[? ?]]; [by left|].
      right. exists n. split; [by left|done].
    + intros Hrest Hp.
      destruct (IH _ _ Hrest Hp) as [Hp1|(n' & ? & ? & ?)].
      * destruct (walkFn_registry _ _ _ _ _ _ _ _ Hn Hp1) as [?|[? ?]]; [by left|].
        right. exists n. split; [by left|done].
      * right. exists n'. split; [by right|done].
Qed.

(** X16. The paths [AddFile] registers are those of the regular files of
    the walk that could be read and parsed: neither a directory, nor a
    file that failed, nor the path given to [AddFile] when it is a
    directory, becomes known to [isFileSrcExist]. *)
Theorem AddFile_registers_only_loaded_files it cm path nodes prio cm' events err p :
  AddFile it cm (inr path) nodes prio = Done (cm', events, err) →
  isFileSrcExist cm' p = true →
  isFileSrcExist cm p = true ∨
  ∃ n, n ∈ nodes ∧ nodePath n = p ∧
       walkErr n = None ∧ notExist n = false ∧
       getFileType (nodeStat n) = RegularFile ∧
       ∃ config, nodeConf n = inr config.
Proof.
  unfold AddFile. destruct (isFileSrcExist cm path) eqn:Hroot.
  - intros [= <- _ _]. by left.
  - destruct (Walk it cm nodes prio []) as [[[cm1 ev1] err1]|] eqn:Hwalk; [|done].
    cbn. intros [= <- _ _] Hp.
    destruct (Walk_registry _ _ _ _ _ _ _ _ _ Hwalk Hp) as [?|(n & ? & ? & Hl)];
      [by left|].
    right. exists n. by destruct Hl as (? & ? & ? & ?).
Qed.


(** X18. A file added at priority [math.MaxUint32] is registered, but
    since that priority is the value the merge takes for "no such path",
    none of its keys is loaded and no event is produced. *)
Theorem AddFile_at_max_priority_loads_nothing it cm path n config :
  isFileSrcExist cm path = false →
  nodePath n = path → walkErr n = None → notExist n = false →
  getFileType (nodeStat n) = RegularFile →
  nodeConf n = inr config →
  AddFile it cm (inr path) [n] MaxUint32 =
  Done ({| Configurations := Configurations cm;
           files := files cm ++ [mkFile path MaxUint32] |}, [], None).
Proof.
  intros Hnew Hpath Herr Hex Htype Hconf.
  unfold AddFile. rewrite Hnew. cbn [Walk]. unfold walkFn, handleFile.
  rewrite Herr, Hex, Htype, Hconf, Hpath. cbn [handlePriority].
  assert (handlePriority_files (files cm) path MaxUint32 =
          files cm ++ [mkFile path MaxUint32]) as ->.
  { apply handlePriority_other_priority. apply Forall_forall. intros f Hf [Hp _].
    assert (isFileSrcExist_loop (files cm) path = true) as Hin; [|unfold isFileSrcExist in Hnew; congruence].
    apply isFileSrcExist_loop_true, list_elem_of_fmap. by exists f. }
  rewrite compareUpdate_on_unregistered; [done|].
  cbn [files]. rewrite lookupPriority_snoc. by rewrite bool_decide_eq_true_2.
Qed.

End WalkCases.

(** * The watcher *)

Section Strings.

Lemma string_length_app (a b : string) :
  String.length (a ++ b)%string = (String.length a + String.length b)%nat.
Proof. induction a as [|c a IH]; simpl; [done|by f_equal]. Qed.

Lemma substring_whole (b : string) : String.substring 0 (String.length b) b = b.
Proof. induction b as [|c b IH]; simpl; [done|by f_equal]. Qed.

Lemma substring_skip (a b : string) :
  String.substring (String.length a) (String.length b) (a ++ b)%string = b.
Proof. induction a as [|c a IH]; simpl; [apply substring_whole|done]. Qed.

(** A string has each of its endings as a suffix. *)
Lemma HasSuffix_app (base suffix : string) :
  HasSuffix (base ++ suffix)%string suffix = true.
Proof.
  unfold HasSuffix. rewrite string_length_app.
  rewrite bool_decide_eq_true_2 by lia. cbn [andb].
  apply bool_decide_eq_true_2.
  replace (String.length base + String.length suffix - String.length suffix)%nat
    with (String.length base) by lia.
  apply substring_skip.
Qed.

End Strings.

Section WatchCases.
Context {Val : Type} `{!EqDecision Val}.
Variable Convert2JavaProps : FileHandler Val.
Implicit Types (ws : watchedSource Val) (it : iteration Val) (fs : fileSystem).
Implicit Types (eta : list (string * option (FileHandler Val))).
Implicit Types (events : list (Event Val)) (event : fsEvent).

(** X19. The loop of [watchFile] reconciles nothing for an event on a path
    that ends in [.swx], [.swp] or [~], whatever the operation, nor for an
    event that is exactly a removal or exactly a rename: the state stays
    and the callback gets no event. *)
Theorem watchEvent_skips_editor_files_and_removals it fs eta ws event :
  (∃ base, Name event = (base ++ ".swx")%string ∨
           Name event = (base ++ ".swp")%string ∨
           Name event = (base ++ "~")%string) ∨
  Op event = fsnotify_Remove ∨ Op event = fsnotify_Rename →
  watchEvent Convert2JavaProps it fs eta ws event = Done (ws, []).
Proof.
  intros Hcase. unfold watchEvent.
  assert (watchAction_of event ≠ Reconciled) as Hact.
  { unfold watchAction_of.
    destruct Hcase as [(base & [->| [->| ->]])|[Hop|Hop]].
    - by rewrite HasSuffix_app.
    - by rewrite HasSuffix_app, orb_true_r.
    - by rewrite HasSuffix_app, !orb_true_r.
    - destruct (_ || _); [done|]. by rewrite bool_decide_eq_true_2.
    - destruct (_ || _); [done|]. case_bool_decide; [done|].
      by rewrite bool_decide_eq_true_2. }
  by destruct (watchAction_of event).
Qed.





(** X21. [AddFile] records the handler under the path it was given and
    nowhere else, and [updateFile] looks the handler up under the path of
    the changed file: a file that was loaded through the walk of another
    path, a directory, is reloaded with [Convert2JavaProps], whatever
    handler the directory was added with. *)
Theorem file_of_a_directory_reloads_with_default_handler
    it it' fs fs' eta ws p prio h ws1 events1 err f op :
  AddFile_handler Convert2JavaProps it fs ws p prio h = Done (ws1, events1, err) →
  fsResolve fs p ≠ inr f →
  fileHandlers ws !! f = None →
  isFileSrcExist (source ws1) f = true →
  updateFile Convert2JavaProps it' fs' eta ws1 (mkFsEvent f op) =
  match pullConf Convert2JavaProps fs' None f with
  | inl _ => Done (ws1, [])
  | inr newConf =>
      r ← compareUpdate_on (source ws1)
            (overStore it' (Configurations (source ws1)))
            (overConf it' newConf) newConf f;
      Done ({| source := r.1; fileHandlers := fileHandlers ws1 |}, r.2)
  end.
Proof.
  intros Hadd Hroot Hnone Hknown.
  assert (fileHandlers ws1 !! f = None) as Hnone1.
  { unfold AddFile_handler in Hadd.
    destruct (fsResolve fs p) as [e|path]; [by simplify_eq|].
    destruct (isFileSrcExist (source ws) path); [by simplify_eq|].
    destruct (AddFile _ _ _ _ _) as [r|]; [|done].
    cbn in Hadd. simplify_eq. cbn [fileHandlers].
    rewrite lookup_insert_ne; [done|]. congruence. }
  unfold updateFile. cbv zeta. cbn [Name]. rewrite Hknown, Hnone1.
  cbn [default from_option id]. unfold pullConf.
  destruct (fsRead fs' f) as [e|content]; [done|].
  cbn [handlerOrDefault].
  by destruct (Convert2JavaProps f content).
Qed.

(** Every entry of the registry after a walk was there before or has the
    priority of the walk. *)
Lemma handlePriority_files_entries (registry : list file) path prio f :
  f ∈ handlePriority_files registry path prio →
  f ∈ registry ∨ f = mkFile path prio.
Proof.
  rewrite handlePriority_files_eq, elem_of_app. intros [Hf|Hf].
  - apply list_elem_of_In, in_flat_map in Hf as (g & Hg%list_elem_of_In & Hf).
    destruct (sameEntry path prio g); cbn in Hf.
    + destruct Hf as [<-|[<-|[]]]; [by right|by left].
    + destruct Hf as [<-|[]]. by left.
  - case_bool_decide; [by apply elem_of_nil in Hf|].
    apply list_elem_of_singleton in Hf. by right.
Qed.

Lemma walkFn_entries it (cm : configMapSource Val) n prio cm' events err f :
  walkFn it cm n prio = Done (cm', events, err) →
  f ∈ files cm' → f ∈ files cm ∨ priority f = prio.
Proof.
  unfold walkFn, handleFile.
  destruct (walkErr n); [intros [= <- _ _]; by left|].
  destruct (notExist n); [intros [= <- _ _]; by left|].
  destruct (getFileType (nodeStat n)); [|intros [= <- _ _]; by left..].
  destruct (nodeConf n) as [e|config]; [intros [= <- _ _]; by left|].
  cbn [handlePriority].
  destruct (compareUpdate_on _ _ _ _ _) as [[cm1 ev1]|] eqn:Hrun; [|done].
  cbn. intros [= <- _ _]. rewrite (compareUpdate_on_files _ _ _ _ _ _ _ Hrun).
  cbn [files]. intros [?| ->]%handlePriority_files_entries; [by left|by right].
Qed.

Lemma Walk_entries it (cm : configMapSource Val) nodes prio events0 cm' events err f :
  Walk it cm nodes prio events0 = Done (cm', events, err) →
  f ∈ files cm' → f ∈ files cm ∨ priority f = prio.
Proof.
  revert cm events0. induction nodes as [|n nodes IH]; intros cm events0.
  - cbn. intros [= <- _ _]. by left.
  - cbn [Walk].
    destruct (walkFn it cm n prio) as [[[cm1 ev1] err1]|] eqn:Hn; [|done].
    cbn. destruct err1 as [e|].
    + intros [= <- _ _]. by eapply walkFn_entries.
    + intros Hrest Hf. destruct (IH _ _ Hrest Hf) as [Hf1|?]; [|by right].
      by eapply walkFn_entries.
Qed.

(** The priority read for a path is that of one of its entries. *)
Lemma lookupPriority_entry (registry : list file) path :
  isFileSrcExist_loop registry path = true →
  ∃ f, f ∈ registry ∧ filePath f = path ∧ priority f = lookupPriority registry path.
Proof.
  induction registry as [|f registry IH] using rev_ind; [done|].
  rewrite isFileSrcExist_loop_app, lookupPriority_snoc. cbn.
  destruct (decide (filePath f = path)) as [Hf|Hf].
  - rewrite (bool_decide_eq_true_2 _ Hf).
    intros _. exists f. split; [|done]. apply elem_of_app. right. by left.
  - rewrite (bool_decide_eq_false_2 _ Hf).
    rewrite bool_decide_eq_false_2 by congruence. rewrite orb_false_r.
    intros (g & Hg & ? & ?)%IH. exists g. split; [|done].
    apply elem_of_app. by left.
Qed.

Lemma inferPriority_default (registry : list file) name :
  Forall (fun f => Contains name (filePath f) = false) registry →
  inferPriority registry name = configMapSourcePriority.
Proof.
  intros Hnone. unfold inferPriority. generalize configMapSourcePriority.
  induction Hnone as [|f registry Hf _ IH]; intros acc; [done|].
  cbn. rewrite Hf. apply IH.
Qed.

(** X22. A file the watcher discovers is registered at the priority
    [updateFile] infers for it, which is the priority of the backend, 4,
    as soon as no registered path is contained in its name; the priority
    some directory was added with plays no part. *)
Theorem discovered_file_priority it fs eta ws event ws2 events :
  isFileSrcExist (source ws) (Name event) = false →
  updateFile Convert2JavaProps it fs eta ws event = Done (ws2, events) →
  isFileSrcExist (source ws2) (Name event) = true →
  lookupPriority (files (source ws2)) (Name event)
    = inferPriority (files (source ws)) (Name event) ∧
  (Forall (fun f => Contains (Name event) (filePath f) = false) (files (source ws)) →
   lookupPriority (files (source ws2)) (Name event) = configMapSourcePriority).
Proof.
  intros Hnew Hrun Hknown.
  assert (lookupPriority (files (source ws2)) (Name event)
          = inferPriority (files (source ws)) (Name event)) as Hprio.
  { unfold updateFile in Hrun. rewrite Hnew in Hrun.
    unfold AddFile_handler, AddFile in Hrun.
    destruct (fsResolve fs (Name event)) as [e|path].
    { cbn in Hrun. simplify_eq. congruence. }
    destruct (isFileSrcExist (source ws) path).
    { cbn in Hrun. simplify_eq. congruence. }
    destruct (Walk _ _ _ _ _) as [[[cm1 ev1] err1]|] eqn:Hwalk; [|done].
    cbn in Hrun. simplify_eq. cbn [source] in *.
    destruct (lookupPriority_entry _ _ Hknown) as (f & Hf & Hpath & <-).
    destruct (Walk_entries _ _ _ _ _ _ _ _ _ Hwalk Hf) as [Hold|?]; [|done].
    assert (isFileSrcExist_loop (files (source ws)) (Name event) = true) as Hin.
    { apply isFileSrcExist_loop_true, list_elem_of_fmap. by exists f. }
    unfold isFileSrcExist in Hnew. congruence. }
  split; [done|]. intros Hnone. rewrite Hprio. by apply inferPriority_default.
Qed.

(** The handler inferred along a traversal is that of the last entry whose
    path is contained in the name. *)
Lemma inferHandler_from eta name h acc :
  (∀ entry, entry ∈ eta → Contains name entry.1 = true → entry.2 = h) →
  (∃ entry, entry ∈ eta ∧ Contains name entry.1 = true) ∨ acc = h →
  foldl (fun fileHandler (entry : string * option (FileHandler Val)) =>
           if Contains name entry.1 then entry.2 else fileHandler) acc eta = h.
Proof.
  revert acc. induction eta as [|entry eta IH]; intros acc Hall Hsome.
  - destruct Hsome as [(? & []%elem_of_nil & _)|?]; done.
  - cbn [foldl]. apply IH.
    + intros entry' Hin. apply Hall. by right.
    + destruct (Contains name entry.1) eqn:Hc.
      * right. apply Hall; [by left|done].
      * destruct Hsome as [(entry' & Hin & Hc')|?]; [|by right].
        apply elem_of_cons in Hin as [->|Hin]; [congruence|].
        left. by exists entry'.
Qed.

(** X23. When exactly one path of the handler registry is contained in the
    name of a discovered file, [updateFile] infers the handler recorded
    under that path, in whatever order Go enumerates the registry. *)
Theorem inferHandler_unique_root eta ws name root h :
  traversal eta (fileHandlers ws) →
  fileHandlers ws !! root = Some h →
  Contains name root = true →
  (∀ root' h', fileHandlers ws !! root' = Some h' →
               Contains name root' = true → root' = root) →
  inferHandler eta name = h.
Proof.
  intros Heta Hroot Hc Huniq. unfold inferHandler.
  apply inferHandler_from.
  - intros [root' h'] Hin Hc'. cbn in *.
    apply (traversal_elem_of _ _ _ _ Heta) in Hin.
    rewrite (Huniq root' h' Hin Hc') in Hin. congruence.
  - left. exists (root, h). split; [|done].
    by apply (traversal_elem_of _ _ _ _ Heta).
Qed.

(** X24. After [Cleanup] of the created source no path is known and no
    key is served: [GetConfigurationByKey] returns its error for every
    key, [GetConfigurations] is empty, and a merge for any path changes
    nothing and produces no event; the handlers are still recorded.
    [Cleanup] returns no error. *)
Theorem Cleanup_forgets_store_and_registry ws :
  let ws' := (Cleanup true ws).1 in
  (Cleanup true ws).2 = None ∧
  fileHandlers ws' = fileHandlers ws ∧
  GetConfigurations (source ws') = ∅ ∧
  (∀ path, isFileSrcExist (source ws') path = false) ∧
  (∀ sigma key, traversal sigma (Configurations (source ws')) →
     GetConfigurationByKey_on sigma key = Done (inr "key does not exist"%string)) ∧
  (∀ sigma tau newconf path,
     compareUpdate_on (source ws') sigma tau newconf path = Done (source ws', [])).
Proof.
  intros ws'. subst ws'. cbn [Cleanup fst snd source fileHandlers].
  split_and!; try done.
  intros sigma key Hs. unfold traversal in Hs. cbn [Configurations] in Hs.
  rewrite map_to_list_empty in Hs. by apply Permutation_nil_r in Hs as ->.
Qed.

End WatchCases.

(** * The further properties on the example data *)

Lemma mixedStore_ok : store_ok (Configurations mixedStore).
Proof.
  unfold mixedStore. cbn [Configurations].
  repeat (apply map_Forall_insert_2; [discriminate|]).
  apply map_Forall_empty.
Qed.


Lemma absent_key_of_other_source_untouched_witness :
  ∃ cm' events,
    compareUpdate mixedStore lowEdit lowConf = Done (cm', events) ∧
    Configurations cm' !! "w"%string
      = Some (Some {| FilePath := peerConf; Value := "p"%string |}) ∧
    eventsFor "w" events = [].
Proof.
  apply merge_yields_keyOrder.
  apply (absent_key_of_other_source_untouched mixedStore lowEdit lowConf "w"
           {| FilePath := peerConf; Value := "p"%string |}).
  - exact mixedStore_ok.
  - vm_compute. reflexivity.
  - vm_compute. discriminate.
  - vm_compute. reflexivity.
Defined.

Lemma lower_priority_value_discarded_witness :
  ∃ cm' events,
    compareUpdate mixedStore lowEdit lowConf = Done (cm', events) ∧
    Configurations cm' !! "h"%string
      = Some (Some {| FilePath := highConf; Value := "q"%string |}) ∧
    eventsFor "h" events = [].
Proof.
  apply merge_yields_keyOrder.
  apply (lower_priority_value_discarded mixedStore lowEdit lowConf "h"
           {| FilePath := highConf; Value := "q"%string |} "z").
  - exact mixedStore_ok.
  - vm_compute. reflexivity.
  - vm_compute. reflexivity.
  - vm_compute. reflexivity.
Defined.


Lemma new_key_created_witness :
  ∃ cm' events,
    compareUpdate mixedStore lowEdit lowConf = Done (cm', events) ∧
    Configurations cm' !! "n"%string
      = Some (Some {| FilePath := lowConf; Value := "new"%string |}) ∧
    eventsFor "n" events = [event "n" Create "new"%string].
Proof.
  apply merge_yields_keyOrder.
  apply (new_key_created mixedStore lowEdit lowConf "n" "new").
  - exact mixedStore_ok.
  - vm_compute. discriminate.
  - vm_compute. reflexivity.
  - vm_compute. reflexivity.
Defined.

Lemma merge_independent_of_enumeration_witness :
  (compareUpdate mixedStore lowEdit lowConf = Panic ∧
   compareUpdate_on mixedStore (reverse (map_to_list (Configurations mixedStore)))
     (reverse (map_to_list lowEdit)) lowEdit lowConf = Panic) ∨
  ∃ cm' events1 events2,
    compareUpdate mixedStore lowEdit lowConf = Done (cm', events1) ∧
    compareUpdate_on mixedStore (reverse (map_to_list (Configurations mixedStore)))
      (reverse (map_to_list lowEdit)) lowEdit lowConf = Done (cm', events2) ∧
    events1 ≡ₚ events2.
Proof.
  apply (merge_independent_of_enumeration mixedStore lowEdit lowConf).
  - exists (map_to_list (Configurations mixedStore)), (map_to_list lowEdit).
    unfold traversal. done.
  - exists (reverse (map_to_list (Configurations mixedStore))),
           (reverse (map_to_list lowEdit)).
    unfold traversal. split_and!; [apply reverse_Permutation..|done].
Defined.

Lemma merge_keeps_registry_and_owners_witness :
  ∃ cm' events,
    compareUpdate mixedStore lowEdit lowConf = Done (cm', events) ∧
    files cm' = files mixedStore ∧
    ∀ K ci', Configurations cm' !! K = Some (Some ci') →
      match Configurations mixedStore !! K with
      | Some (Some ci) => FilePath ci' = FilePath ci
      | _ => FilePath ci' = lowConf ∧ lowEdit !! K = Some (Value ci')
      end.
Proof.
  apply merge_yields_keyOrder.
  apply (merge_keeps_registry_and_owners mixedStore lowEdit lowConf).
  exact mixedStore_ok.
Defined.

Lemma merge_domain_witness :
  ∃ cm' events,
    compareUpdate mixedStore lowEdit lowConf = Done (cm', events) ∧
    ∀ K, is_Some (Configurations cm' !! K) ↔
         is_Some (lowEdit !! K) ∨
         ∃ ci, Configurations mixedStore !! K = Some (Some ci) ∧ FilePath ci ≠ lowConf.
Proof.
  apply merge_yields_keyOrder.
  apply (merge_domain mixedStore lowEdit lowConf).
  - exact mixedStore_ok.
  - vm_compute. discriminate.
Defined.


Lemma events_report_the_store_witness :
  ∃ cm' events,
    compareUpdate mixedStore lowEdit lowConf = Done (cm', events) ∧
    ∀ e, e ∈ events →
      EventSource e = ConfigMapConfigSourceConst ∧
      match EventType e with
      | Delete =>
          Configurations cm' !! Key e = None ∧
          ∃ ci, Configurations mixedStore !! Key e = Some (Some ci) ∧
                EventValue e = Value ci
      | _ => GetConfigurations cm' !! Key e = Some (Some (EventValue e))
      end.
Proof.
  apply merge_yields_keyOrder.
  apply (events_report_the_store mixedStore lowEdit lowConf).
  exact mixedStore_ok.
Defined.

Lemma merged_key_is_readable_witness :
  ∃ cm' events,
    compareUpdate mixedStore lowEdit lowConf = Done (cm', events) ∧
    ∀ sigma', traversal sigma' (Configurations cm') →
      ∃ w, GetConfigurationByKey_on sigma' "n" = Done (inl w) ∧
           GetConfigurations cm' !! "n"%string = Some (Some w) ∧
           ((∀ ci, Configurations mixedStore !! "n"%string = Some (Some ci) →
                   FilePath ci = lowConf ∨
                   lookupPriority (files mixedStore) lowConf
                     ≤ lookupPriority (files mixedStore) (FilePath ci)) →
            w = "new"%string).
Proof.
  apply merge_yields_keyOrder.
  apply (merged_key_is_readable mixedStore lowEdit lowConf "n" "new").
  - exact mixedStore_ok.
  - vm_compute. discriminate.
  - vm_compute. reflexivity.
Defined.

Lemma Walk_stops_at_first_error_witness :
  Walk keyOrder NewConfigMapSource ([dirNode; aConfNode] ++ sockNode :: [cConfNode]) 5 []
  = Done (afterAConf, [event "x" Create "1"%string],
          Some (notSupportedError "/conf/b.sock")).
Proof.
  apply (Walk_stops_at_first_error keyOrder NewConfigMapSource afterAConf afterAConf
           [dirNode; aConfNode] sockNode [cConfNode] 5 []
           [event "x" Create "1"%string] [] (notSupportedError "/conf/b.sock")).
  - vm_compute. reflexivity.
  - vm_compute. reflexivity.
Defined.


Lemma AddFile_registers_only_loaded_files_witness :
  isFileSrcExist (Val := string) NewConfigMapSource exFile = true ∨
  ∃ n, n ∈ exWalk ∧ nodePath n = exFile ∧
       walkErr n = None ∧ notExist n = false ∧
       getFileType (nodeStat n) = RegularFile ∧
       ∃ config, nodeConf n = inr config.
Proof.
  apply (AddFile_registers_only_loaded_files keyOrder NewConfigMapSource "/conf"
           exWalk 5 afterAConf [event "x" Create "1"%string] None exFile).
  - vm_compute. reflexivity.
  - vm_compute. reflexivity.
Defined.


Lemma AddFile_at_max_priority_loads_nothing_witness :
  AddFile keyOrder NewConfigMapSource (inr exFile) [aConfNode] MaxUint32 =
  Done ({| Configurations := Configurations (Val := string) NewConfigMapSource;
           files := files (Val := string) NewConfigMapSource
                    ++ [mkFile exFile MaxUint32] |}, [], None).
Proof.
  apply (AddFile_at_max_priority_loads_nothing keyOrder NewConfigMapSource exFile
           aConfNode {[ "x"%string := "1"%string ]}).
  - reflexivity.
  - reflexivity.
  - reflexivity.
  - reflexivity.
  - reflexivity.
  - reflexivity.
Defined.

Lemma watchEvent_skips_editor_files_and_removals_witness :
  watchEvent exDefault keyOrder (fileWith "1") [] newSource
             (mkFsEvent "/conf/a.conf.swp" fsnotify_Write)
  = Done (newSource, []).
Proof.
  apply (watchEvent_skips_editor_files_and_removals exDefault keyOrder (fileWith "1")
           [] newSource (mkFsEvent "/conf/a.conf.swp" fsnotify_Write)).
  left. exists exFile. right. left. reflexivity.
Defined.


Lemma file_of_a_directory_reloads_with_default_handler_witness :
  updateFile exDefault keyOrder (fileWith "9") [] afterDir
             (mkFsEvent exFile fsnotify_Write) =
  match pullConf exDefault (fileWith "9") None exFile with
  | inl _ => Done (afterDir, [])
  | inr newConf =>
      r ← compareUpdate_on (source afterDir)
            (overStore keyOrder (Configurations (source afterDir)))
            (overConf keyOrder newConf) newConf exFile;
      Done ({| source := r.1; fileHandlers := fileHandlers afterDir |}, r.2)
  end.
Proof.
  apply (file_of_a_directory_reloads_with_default_handler exDefault keyOrder keyOrder
           (dirWith "1") (fileWith "9") [] newSource "/conf" 7 (Some exHandler)
           afterDir [event "x" Create "1"%string] None exFile fsnotify_Write).
  - vm_compute. reflexivity.
  - vm_compute. discriminate.
  - reflexivity.
  - vm_compute. reflexivity.
Defined.

Lemma discovered_file_priority_witness :
  lookupPriority (files (source afterDiscovery)) "/conf/b.conf"
    = inferPriority (files (source afterDir)) "/conf/b.conf" ∧
  (Forall (fun f => Contains "/conf/b.conf" (filePath f) = false)
          (files (source afterDir)) →
   lookupPriority (files (source afterDiscovery)) "/conf/b.conf"
     = configMapSourcePriority).
Proof.
  apply (discovered_file_priority exDefault keyOrder (fileWith "2")
           (map_to_list (fileHandlers afterDir)) afterDir
           (mkFsEvent "/conf/b.conf" fsnotify_Create) afterDiscovery
           [event "x" Update "2"%string]).
  - vm_compute. reflexivity.
  - vm_compute. reflexivity.
  - vm_compute. reflexivity.
Defined.

Lemma afterDir_handlers : fileHandlers afterDir = {[ "/conf"%string := Some exHandler ]}.
Proof. vm_compute. reflexivity. Qed.

Lemma inferHandler_unique_root_witness :
  inferHandler (map_to_list (fileHandlers afterDir)) "/conf/b.conf" = Some exHandler.
Proof.
  apply (inferHandler_unique_root (map_to_list (fileHandlers afterDir)) afterDir
           "/conf/b.conf" "/conf" (Some exHandler)).
  - unfold traversal. reflexivity.
  - rewrite afterDir_handlers. apply lookup_singleton_eq.
  - vm_compute. reflexivity.
  - intros root' h'. rewrite afterDir_handlers.
    intros [-> _]%lookup_singleton_Some _. reflexivity.
Defined.
